(** * display-watcher: a shallow embedding of [display_watcher.py]

    The program polls the DRM connector nodes under [/sys/class/drm],
    keeps per-port and per-card state, and runs a command whenever a poll
    finds a difference.  This file embeds [Port], [Card], [Watcher] and the
    helpers they call, and proves properties of them.

    Conventions of the embedding.
    - Python objects mutated in place become records threaded through the
      functions; a method returns the new object together with an
      [outcome] saying whether it returned or raised.  What was written
      before the [raise] stays written, as in Python.
    - The file system is an oracle [FileSys] observed by one poll.
    - A [dict] is an association list in insertion order; a [set] is a
      [gset], and the order in which a [for] loop visits a set is a
      parameter ([SetIter]), since Python does not fix it.
    - A [str] is a [string] whose characters are code points below 256.
    - [float] seconds are idealised as exact rationals ([Qc]).
    - Logging has no effect on the state and is left out; so is the
      [KeyboardInterrupt] that [main] catches. *)

From Stdlib Require Import Ascii String QArith Qcanon.
From stdpp Require Import base numbers strings list gmap sets.

Local Open Scope string_scope.
Local Open Scope list_scope.

(** ** Exceptions and outcomes *)

Inductive exn : Type :=
| OSError (filename : string)
| KeyError (key : string).

Inductive result (A : Type) : Type :=
| Ok (a : A)
| Raise (e : exn).
Arguments Ok {A} a.
Arguments Raise {A} e.

Inductive outcome : Type :=
| Normal
| Raised (e : exn).

(** ** The file system seen by one poll

    [listdir path] is [os.listdir(path)]; [readline path] is the value of
    [f.readline()] inside [with open(path) as f], or the exception that
    [open] or the read raised. *)

Record FileSys : Type := mkFileSys {
  listdir : string → result (list string);
  readline : string → result string
}.

(** ** Iteration order of a Python set *)

Record SetIter : Type := mkSetIter {
  iter :> gset string → list string;
  iter_perm : ∀ X, iter X ≡ₚ elements X
}.

Definition elements_order : SetIter :=
  {| iter := elements; iter_perm := λ X, reflexivity (elements X) |}.

(** ** Strings: [str.strip], [os.path.join], [re.match] *)

Definition DRM_PATH : string := "/sys/class/drm".

(** [str.isspace], one character at a time.  A character of a [string]
    stands for the code point of its number, so the strings here are the
    Python strings over the code points below 256.  There the whitespace
    characters are TAB, LF, VT, FF, CR (9 to 13), FS, GS, RS, US and the
    space (28 to 32), NEL (133, U+0085) and the no-break space (160,
    U+00A0). *)
Definition isspace (c : ascii) : bool :=
  let n := nat_of_ascii c in
  ((9 <=? n) && (n <=? 13) || (28 <=? n) && (n <=? 32)
   || (n =? 133) || (n =? 160))%nat.

Fixpoint lstrip (s : string) : string :=
  match s with
  | EmptyString => EmptyString
  | String c s' => if isspace c then lstrip s' else s
  end.

Fixpoint rstrip (s : string) : string :=
  match s with
  | EmptyString => EmptyString
  | String c s' =>
      match rstrip s' with
      | EmptyString => if isspace c then EmptyString else String c EmptyString
      | r => String c r
      end
  end.

Definition strip (s : string) : string := rstrip (lstrip s).

Fixpoint endswith_slash (s : string) : bool :=
  match s with
  | EmptyString => false
  | String c EmptyString => Ascii.eqb c "/"
  | String _ s' => endswith_slash s'
  end.

Definition startswith_slash (s : string) : bool :=
  match s with
  | String c _ => Ascii.eqb c "/"
  | EmptyString => false
  end.

(** The slice [s[n:]]: past the end it is empty. *)
Fixpoint slice_from (n : nat) (s : string) : string :=
  match n, s with
  | O, _ => s
  | S n', String _ s' => slice_from n' s'
  | S _, EmptyString => EmptyString
  end.

(** [posixpath.join] with two arguments. *)
Definition os_path_join (a b : string) : string :=
  if startswith_slash b then b
  else if String.eqb a "" || endswith_slash a then (a +:+ b)
  else (a +:+ "/" +:+ b).

(** The two patterns of the program are sequences of character classes,
    each taken once or one-or-more times, optionally closed by [$]. *)
Inductive quant : Type := Once | Plus.

Record pattern : Type := mkPattern {
  pat_items : list ((ascii → bool) * quant);
  pat_dollar : bool
}.

Definition lit (c : ascii) : (ascii → bool) * quant := (Ascii.eqb c, Once).
Definition digit (c : ascii) : bool :=
  let n := nat_of_ascii c in ((48 <=? n) && (n <=? 57))%nat.
(** [.] without DOTALL: any character but the newline. *)
Definition dot (c : ascii) : bool := negb (Ascii.eqb c "010").

(** [$] without MULTILINE: at the end, or before a final newline. *)
Definition at_dollar (s : string) : bool :=
  match s with
  | EmptyString => true
  | String c EmptyString => Ascii.eqb c "010"
  | _ => false
  end.

(** [re.match]: the pattern has to match at the start of the string, not
    the whole of it.  All splits of a [+] are tried. *)
Fixpoint match_items (items : list ((ascii → bool) * quant)) (dollar : bool)
    (s : string) : bool :=
  match items with
  | [] => if dollar then at_dollar s else true
  | (cls, Once) :: rest =>
      match s with
      | String c s' => cls c && match_items rest dollar s'
      | EmptyString => false
      end
  | (cls, Plus) :: rest =>
      (fix plus (s : string) : bool :=
         match s with
         | String c s' => cls c && (match_items rest dollar s' || plus s')
         | EmptyString => false
         end) s
  end.

Definition re_match (p : pattern) (s : string) : bool :=
  match_items (pat_items p) (pat_dollar p) s.

Definition card_prefix : list ((ascii → bool) * quant) :=
  [lit "c"; lit "a"; lit "r"; lit "d"; (digit, Plus)].

(** [r"card[0-9]+$"] *)
Definition DRM_CARD_PATTERN : pattern :=
  {| pat_items := card_prefix; pat_dollar := true |}.

(** [r"card[0-9]+.+"] *)
Definition DRM_PORT_PATTERN : pattern :=
  {| pat_items := card_prefix ++ [(dot, Plus)]; pat_dollar := false |}.

(** ** Port *)

Module Port.

Record t : Type := mk {
  _path : string;
  _status : option string;
  _previous_status : option string;
  _changed : bool
}.

(** [Port.__init__] *)
Definition init (path : string) : t :=
  {| _path := path; _status := None; _previous_status := None;
     _changed := false |}.

Definition set_changed (b : bool) (self : t) : t :=
  {| _path := _path self; _status := _status self;
     _previous_status := _previous_status self; _changed := b |}.

Definition connected (self : t) : bool :=
  bool_decide (_status self = Some "connected").

Definition path (self : t) : string := _path self.

(** The [status] property: [None] and the empty string are falsy. *)
Definition status (self : t) : string :=
  match _status self with
  | Some s => if String.eqb s "" then "none" else s
  | None => "none"
  end.

Definition changed (self : t) : bool := _changed self.

(** [Port.update].  The flag is cleared before the file is opened, so it
    is already [False] when [open] raises. *)
Definition update (fs : FileSys) (self : t) : t * outcome :=
  let self := set_changed false self in
  let status_attr := os_path_join (_path self) "status" in
  match readline fs status_attr with
  | Raise e => (self, Raised e)
  | Ok line =>
      let status_str := strip line in
      let previous := _status self in
      ({| _path := _path self;
          _status := Some status_str;
          _previous_status := previous;
          _changed := bool_decide (Some status_str ≠ previous) |},
       Normal)
  end.

(** One port driven through successive ticks, each with its own file
    system; a tick that raises ends the sequence, as it ends the
    process. *)
Fixpoint updates (fss : list FileSys) (self : t) : t * outcome :=
  match fss with
  | [] => (self, Normal)
  | fs :: fss' =>
      match update fs self with
      | (self, Raised e) => (self, Raised e)
      | (self, Normal) => updates fss' self
      end
  end.

(** The port with its flag forgotten. *)
Definition clear (self : t) : t := set_changed false self.

(** [Port.__str__] *)
Definition __str__ (self : t) : string :=
  slice_from (String.length DRM_PATH + 1) (_path self).

End Port.

(** ** Python dictionaries: insertion-ordered, keys unique *)

Abbreviation dict V := (list (string * V)).

Definition dict_keys {V} (d : dict V) : list string := d.*1.

Fixpoint dict_get {V} (k : string) (d : dict V) : option V :=
  match d with
  | [] => None
  | (k', v) :: d' => if decide (k = k') then Some v else dict_get k d'
  end.

(** [d[k] = v]: an existing key keeps its place, a new one goes last. *)
Fixpoint dict_set {V} (k : string) (v : V) (d : dict V) : dict V :=
  match d with
  | [] => [(k, v)]
  | (k', v') :: d' =>
      if decide (k = k') then (k, v) :: d' else (k', v') :: dict_set k v d'
  end.

(** [del d[k]]: [None] stands for the [KeyError] of a missing key. *)
Definition dict_del {V} (k : string) (d : dict V) : option (dict V) :=
  if decide (k ∈ dict_keys d) then Some (filter (λ kv, kv.1 ≠ k) d) else None.

(** ** Card *)

Module Card.

Record t : Type := mk {
  _path : string;
  _ports : dict Port.t;
  _changed : bool
}.

(** [Card.__init__] *)
Definition init (path : string) : t :=
  {| _path := path; _ports := []; _changed := false |}.

Definition path (self : t) : string := _path self.
Definition changed (self : t) : bool := _changed self.

Definition set_changed (b : bool) (self : t) : t :=
  {| _path := _path self; _ports := _ports self; _changed := b |}.

Definition set_ports (ports : dict Port.t) (self : t) : t :=
  {| _path := _path self; _ports := ports; _changed := _changed self |}.

(** [Card._enum_ports] *)
Definition _enum_ports (fs : FileSys) (self : t) : result (list string) :=
  match listdir fs (_path self) with
  | Raise e => Raise e
  | Ok items => Ok (filter (λ item, re_match DRM_PORT_PATTERN item = true) items)
  end.

(** [for name in added_ports: self._ports[name] = Port(...)] *)
Fixpoint add_ports (path : string) (names : list string)
    (ports : dict Port.t) : dict Port.t :=
  match names with
  | [] => ports
  | name :: names' =>
      add_ports path names'
        (dict_set name (Port.init (os_path_join path name)) ports)
  end.

(** [for name in removed_ports: del self._ports[name]] *)
Fixpoint remove_ports (names : list string) (ports : dict Port.t)
    : dict Port.t * outcome :=
  match names with
  | [] => (ports, Normal)
  | name :: names' =>
      match dict_del name ports with
      | None => (ports, Raised (KeyError name))
      | Some ports' => remove_ports names' ports'
      end
  end.

(** [for port in self._ports.values(): port.update();
     self._changed |= port.changed] *)
Fixpoint update_ports (fs : FileSys) (ports : dict Port.t) (changed : bool)
    : dict Port.t * bool * outcome :=
  match ports with
  | [] => ([], changed, Normal)
  | (name, port) :: rest =>
      match Port.update fs port with
      | (port', Raised e) => ((name, port') :: rest, changed, Raised e)
      | (port', Normal) =>
          let '(rest', changed', o) :=
            update_ports fs rest (changed || Port.changed port') in
          ((name, port') :: rest', changed', o)
      end
  end.

(** The reconciliation of [Card.update], from the two set differences to
    the last [del]: the body of the method without its first statement
    and its last loop.  [names] is what [_enum_ports] returned. *)
Definition reconcile (ord : SetIter) (names : list string) (self : t)
    : t * outcome :=
  let new_port_names_set : gset string := list_to_set names in
  let current_port_names_set : gset string :=
    list_to_set (dict_keys (_ports self)) in
  let added_ports := new_port_names_set ∖ current_port_names_set in
  let self :=
    if decide (added_ports ≠ ∅) then set_changed true self else self in
  let self :=
    set_ports (add_ports (_path self) (ord added_ports) (_ports self)) self in
  let removed_ports := current_port_names_set ∖ new_port_names_set in
  let self :=
    if decide (removed_ports ≠ ∅) then set_changed true self else self in
  let '(ports, o) := remove_ports (ord removed_ports) (_ports self) in
  (set_ports ports self, o).

(** [Card.update] *)
Definition update (ord : SetIter) (fs : FileSys) (self : t) : t * outcome :=
  let self := set_changed false self in
  match _enum_ports fs self with
  | Raise e => (self, Raised e)
  | Ok names =>
      match reconcile ord names self with
      | (self, Raised e) => (self, Raised e)
      | (self, Normal) =>
          let '(ports, changed, o) :=
            update_ports fs (_ports self) (_changed self) in
          ({| _path := _path self; _ports := ports; _changed := changed |}, o)
      end
  end.

(** The card with its flag and the flags of its ports forgotten. *)
Definition clear (self : t) : t :=
  {| _path := _path self;
     _ports := prod_map id Port.clear <$> _ports self;
     _changed := false |}.

(** [Card.__str__] *)
Definition __str__ (self : t) : string :=
  slice_from (String.length DRM_PATH + 1) (path self).

End Card.

(** [enum_cards] *)
Definition enum_cards (fs : FileSys) : result (list Card.t) :=
  match listdir fs DRM_PATH with
  | Raise e => Raise e
  | Ok items =>
      let card_paths :=
        os_path_join DRM_PATH <$>
          filter (λ item, re_match DRM_CARD_PATTERN item = true) items in
      Ok (Card.init <$> card_paths)
  end.

(** ** Watcher *)

Module Watcher.

Record t : Type := mk {
  _cards : list Card.t;
  _changed : bool
}.

(** [Watcher.__init__] *)
Definition init (fs : FileSys) : result t :=
  match enum_cards fs with
  | Raise e => Raise e
  | Ok cards => Ok {| _cards := cards; _changed := false |}
  end.

Definition changed (self : t) : bool := _changed self.

(** [for card in self._cards: card.update();
     self._changed |= card.changed] *)
Fixpoint poll_cards (ord : SetIter) (fs : FileSys) (cards : list Card.t)
    (changed : bool) : list Card.t * bool * outcome :=
  match cards with
  | [] => ([], changed, Normal)
  | card :: rest =>
      match Card.update ord fs card with
      | (card', Raised e) => (card' :: rest, changed, Raised e)
      | (card', Normal) =>
          let '(rest', changed', o) :=
            poll_cards ord fs rest (changed || Card.changed card') in
          (card' :: rest', changed', o)
      end
  end.

(** [Watcher.poll] *)
Definition poll (ord : SetIter) (fs : FileSys) (self : t) : t * outcome :=
  let '(cards, changed, o) := poll_cards ord fs (_cards self) false in
  ({| _cards := cards; _changed := changed |}, o).

(** Successive polls, each with its own set order and file system. *)
Fixpoint polls (ticks : list (SetIter * FileSys)) (self : t) : t * outcome :=
  match ticks with
  | [] => (self, Normal)
  | (ord, fs) :: ticks' =>
      match poll ord fs self with
      | (self, Raised e) => (self, Raised e)
      | (self, Normal) => polls ticks' self
      end
  end.

(** The watcher with every flag below it forgotten. *)
Definition clear (self : t) : t :=
  {| _cards := Card.clear <$> _cards self; _changed := false |}.

End Watcher.

(** Two file systems that answer every listing and every read alike. *)
Definition same_files (a b : FileSys) : Prop :=
  (∀ path, listdir a path = listdir b path) ∧
  (∀ path, readline a path = readline b path).

(** ** The scheduler: [Watcher.run]

    The loop never ends by itself, so it is unrolled a given number of
    rounds.  Everything outside the process is an oracle: the [k]-th call
    of [time.monotonic] returns [clock k], the [k]-th poll sees the file
    system [files k] and visits sets in the order [order k], and the
    [k]-th [subprocess.run] returns or raises as [spawn k] says. *)

Record Args : Type := mkArgs {
  polling_rate : Qc;
  verbose : nat;
  cmd : list string
}.

Record World : Type := mkWorld {
  clock : nat → Qc;
  files : nat → FileSys;
  order : nat → SetIter;
  spawn : nat → outcome
}.

Inductive event : Type :=
| Polled (changed : bool)
| Spawned (command : list string)
| Slept (seconds : Qc).

Record Proc : Type := mkProc {
  watcher : Watcher.t;
  deadline : Qc;
  clock_reads : nat;
  polls : nat;
  spawns : nat
}.

Module Run.

(** [self.poll()] inside [run] *)
Definition do_poll (W : World) (st : Proc) : Proc * list event * outcome :=
  let '(w, o) :=
    Watcher.poll (order W (polls st)) (files W (polls st)) (watcher st) in
  let st :=
    {| watcher := w; deadline := deadline st;
       clock_reads := clock_reads st; polls := S (polls st);
       spawns := spawns st |} in
  match o with
  | Raised e => (st, [], Raised e)
  | Normal => (st, [Polled (Watcher.changed w)], Normal)
  end.

(** [time.monotonic()] *)
Definition monotonic (W : World) (st : Proc) : Qc * Proc :=
  (clock W (clock_reads st),
   {| watcher := watcher st; deadline := deadline st;
      clock_reads := S (clock_reads st); polls := polls st;
      spawns := spawns st |}).

Definition set_deadline (d : Qc) (st : Proc) : Proc :=
  {| watcher := watcher st; deadline := d;
     clock_reads := clock_reads st; polls := polls st;
     spawns := spawns st |}.

(** [subprocess.run(args.cmd, check=False)] *)
Definition subprocess_run (W : World) (command : list string) (st : Proc)
    : Proc * list event * outcome :=
  ({| watcher := watcher st; deadline := deadline st;
      clock_reads := clock_reads st; polls := polls st;
      spawns := S (spawns st) |},
   [Spawned command], spawn W (spawns st)).

(** The body of [if time.monotonic() >= deadline:] *)
Definition fire (W : World) (args : Args) (st : Proc)
    : Proc * list event * outcome :=
  match do_poll W st with
  | (st, ev, Raised e) => (st, ev, Raised e)
  | (st, ev, Normal) =>
      let '(st, ev', o) :=
        if Watcher._changed (watcher st)
        then subprocess_run W (cmd args) st
        else (st, [], Normal) in
      match o with
      | Raised e => (st, ev ++ ev', Raised e)
      | Normal =>
          (set_deadline (deadline st + polling_rate args)%Qc st,
           ev ++ ev', Normal)
      end
  end.

(** [max(0, x)]: the second argument wins only when it is larger. *)
Definition max0 (x : Qc) : Qc := if decide (0 < x)%Qc then x else 0%Qc.

(** One round of [while True:] *)
Definition round (W : World) (args : Args) (st : Proc)
    : Proc * list event * outcome :=
  let '(now, st) := monotonic W st in
  let '(st, ev, o) :=
    if decide (deadline st ≤ now)%Qc then fire W args st
    else (st, [], Normal) in
  match o with
  | Raised e => (st, ev, Raised e)
  | Normal =>
      let '(now, st) := monotonic W st in
      let sleep_time := max0 (deadline st - now)%Qc in
      (st, ev ++ [Slept sleep_time], Normal)
  end.

Fixpoint loop (W : World) (args : Args) (n : nat) (st : Proc)
    : Proc * list event * outcome :=
  match n with
  | O => (st, [], Normal)
  | S n' =>
      match round W args st with
      | (st, ev, Raised e) => (st, ev, Raised e)
      | (st, ev, Normal) =>
          let '(st, ev', o) := loop W args n' st in (st, ev ++ ev', o)
      end
  end.

Definition start (w : Watcher.t) : Proc :=
  {| watcher := w; deadline := 0%Qc; clock_reads := 0; polls := 0;
     spawns := 0 |}.

(** The statements of [run] before [while True:] (the logging set-up
    apart): the first poll and the first deadline. *)
Definition prologue (W : World) (w : Watcher.t)
    : Proc * list event * outcome :=
  match do_poll W (start w) with
  | (st, ev, Raised e) => (st, ev, Raised e)
  | (st, ev, Normal) =>
      let '(now, st) := monotonic W st in
      (set_deadline now st, ev, Normal)
  end.

(** [Watcher.run], the loop cut after [n] rounds. *)
Definition run (W : World) (args : Args) (n : nat) (w : Watcher.t)
    : Proc * list event * outcome :=
  match prologue W w with
  | (st, ev, Raised e) => (st, ev, Raised e)
  | (st, ev, Normal) =>
      let '(st, ev', o) := loop W args n st in (st, ev ++ ev', o)
  end.

End Run.

(** What a port is compared with at tick [n] of a sequence of successful
    readings, and what it reads there: the readings are the lines as
    [readline] returns them, the statuses their [strip]. *)
Definition status_read (lines : list string) (n : nat) : option string :=
  strip <$> lines !! n.

Definition status_before (path : string) (lines : list string) (n : nat)
    : option string :=
  match n with
  | O => Port._status (Port.init path)
  | S m => status_read lines m
  end.

(** The three statuses a DRM connector reports. *)
Definition status_domain : list string :=
  ["connected"; "disconnected"; "unknown"].

(** The number of polls that completed in a trace. *)
Definition is_polled (e : event) : bool :=
  match e with Polled _ => true | _ => false end.

Definition fired (ev : list event) : nat :=
  length (filter (λ e, is_polled e = true) ev).

(** [k] as a number of seconds or of ticks. *)
Definition of_nat (k : nat) : Qc := Q2Qc (inject_Z (Z.of_nat k)).

(** Every command in the trace was run right after a poll that reported
    a change. *)
Definition spawned_after_poll (ev : list event) : Prop :=
  ∀ i command, ev !! i = Some (Spawned command) →
    ∃ j, i = S j ∧ ev !! j = Some (Polled true).

(** A port, a card, a watcher that hold exactly what the file system
    [fs] shows: the state a poll of [fs] leaves behind. *)
Definition port_settled (fs : FileSys) (p : Port.t) : Prop :=
  ∃ line, readline fs (os_path_join (Port._path p) "status") = Ok line ∧
    Port._status p = Some (strip line).

Definition card_settled (fs : FileSys) (c : Card.t) : Prop :=
  (∃ names, Card._enum_ports fs c = Ok names ∧
     (list_to_set (dict_keys (Card._ports c)) : gset string) =
       list_to_set names) ∧
  Forall (λ kv, port_settled fs kv.2) (Card._ports c).

Definition watcher_settled (fs : FileSys) (w : Watcher.t) : Prop :=
  Forall (card_settled fs) (Watcher._cards w).

(** ** Vocabulary for the further properties *)

Definition newline : ascii := "010".

Fixpoint all_digits (s : string) : bool :=
  match s with
  | EmptyString => true
  | String c s' => digit c && all_digits s'
  end.

(** The first and the last character of a string. *)
Definition first_char (s : string) : option ascii :=
  match s with
  | EmptyString => None
  | String c _ => Some c
  end.

Fixpoint last_char (s : string) : option ascii :=
  match s with
  | EmptyString => None
  | String c EmptyString => Some c
  | String _ s' => last_char s'
  end.

(** The commands run in a trace, and the polls that reported a change. *)
Definition is_spawned (e : event) : bool :=
  match e with Spawned _ => true | _ => false end.

Definition is_changed_poll (e : event) : bool :=
  match e with Polled true => true | _ => false end.

Fixpoint count_events (f : event → bool) (ev : list event) : nat :=
  match ev with
  | [] => 0
  | e :: ev' => (if f e then 1 else 0) + count_events f ev'
  end.

Definition spawned (ev : list event) : nat := count_events is_spawned ev.

Definition changed_polls (ev : list event) : nat :=
  count_events is_changed_poll ev.

(** A card as the program makes and keeps it: it stands for an entry of
    [DRM_PATH] that matches the card pattern, and each of its ports is
    kept under a name that matches the port pattern and has the path of
    that name inside the card's directory. *)
Definition card_ok (c : Card.t) : Prop :=
  (∃ item, re_match DRM_CARD_PATTERN item = true ∧
     Card._path c = os_path_join DRM_PATH item) ∧
  Forall (λ kv, re_match DRM_PORT_PATTERN kv.1 = true ∧
                Port._path kv.2 = os_path_join (Card._path c) kv.1)
    (Card._ports c).

(** * Concrete inputs *)

Definition nl : string := String "010" EmptyString.

(** A [/sys/class/drm] with the given cards; each card has its connector
    directories, given with what reading their [status] yields, next to
    some entries that are not connectors. *)
Definition sysfs (cards : list (string * list (string * result string)))
    : FileSys :=
  {| listdir := λ path,
       if decide (path = DRM_PATH) then Ok ("version" :: cards.*1)
       else
         match list_find (λ c, os_path_join DRM_PATH c.1 = path) cards with
         | Some (_, c) => Ok (c.2.*1 ++ ["device"; "dev"; "uevent"])
         | None => Raise (OSError path)
         end;
     readline := λ path,
       let ports :=
         mjoin ((λ c, prod_map (os_path_join (os_path_join DRM_PATH c.1)) id
                        <$> c.2) <$> cards) in
       match list_find (λ p, os_path_join p.1 "status" = path) ports with
       | Some (_, p) => p.2
       | None => Raise (OSError path)
       end |}.

Definition dp1 : string := "/sys/class/drm/card0/card0-DP-1".

Definition one_port (r : result string) : FileSys :=
  sysfs [("card0", [("card0-DP-1", r)])].

Definition two_ports (r1 r2 : result string) : FileSys :=
  sysfs [("card0", [("card0-DP-1", r1); ("card0-HDMI-A-1", r2)])].

Definition flip_lines : list string :=
  ["disconnected" +:+ nl; "disconnected" +:+ nl; "connected" +:+ nl].

Definition flip_files : list FileSys := (λ l, one_port (Ok l)) <$> flip_lines.

Definition card0 : string := "/sys/class/drm/card0".

(** A card that knows a DP and a VGA connector from an earlier tick. *)
Definition card0_before : Card.t :=
  {| Card._path := card0;
     Card._ports :=
       [("card0-DP-1",
         {| Port._path := dp1; Port._status := Some "connected";
            Port._previous_status := Some "disconnected";
            Port._changed := true |});
        ("card0-VGA-1",
         {| Port._path := "/sys/class/drm/card0/card0-VGA-1";
            Port._status := Some "disconnected";
            Port._previous_status := Some "disconnected";
            Port._changed := false |})];
     Card._changed := true |}.

(** The same card when the VGA node is gone and an HDMI node is there. *)
Definition fs_hdmi : FileSys :=
  two_ports (Ok ("connected" +:+ nl)) (Ok ("disconnected" +:+ nl)).

(** The watcher as [Watcher.__init__] builds it when [card0] is the only
    card. *)
Definition watcher0 : Watcher.t :=
  {| Watcher._cards := [Card.init card0]; Watcher._changed := false |}.

(** The DP connector cannot be read; the HDMI one now has a display. *)
Definition fs_dp_unreadable : FileSys :=
  two_ports (Raise (OSError (os_path_join dp1 "status")))
    (Ok ("connected" +:+ nl)).

(** The two ports [card0_before] knows. *)
Definition dp1_before : Port.t :=
  {| Port._path := dp1; Port._status := Some "connected";
     Port._previous_status := Some "disconnected"; Port._changed := true |}.

Definition vga1_before : Port.t :=
  {| Port._path := "/sys/class/drm/card0/card0-VGA-1";
     Port._status := Some "disconnected";
     Port._previous_status := Some "disconnected"; Port._changed := false |}.

(** [card0] has its DP and VGA connectors and a new HDMI one; the VGA
    connector cannot be read.  There is a second card, without ports. *)
Definition fs_vga_unreadable : FileSys :=
  sysfs
    [("card0",
      [("card0-DP-1", Ok ("disconnected" +:+ nl));
       ("card0-VGA-1",
        Raise (OSError "/sys/class/drm/card0/card0-VGA-1/status"));
       ("card0-HDMI-A-1", Ok ("connected" +:+ nl))]);
     ("card1", [])].

Definition two_cards_before : Watcher.t :=
  {| Watcher._cards := [card0_before; Card.init "/sys/class/drm/card1"];
     Watcher._changed := false |}.

(** The clock shows [k] seconds at its [k]-th reading. *)
Definition seconds (k : nat) : Qc := of_nat k.

(** The command line [display-watcher xrandr --auto]: the polling rate
    has its default, 0.2. *)
Definition default_args : Args :=
  {| polling_rate := Q2Qc (2 # 10); verbose := 0; cmd := ["xrandr"; "--auto"] |}.

(** A world whose successive polls see the given file systems (and the
    last of them, or [fs_hdmi], ever after). *)
Definition world_of (fss : list FileSys) : World :=
  {| clock := seconds;
     files := λ k, default (default fs_hdmi (last fss)) (fss !! k);
     order := λ _, elements_order;
     spawn := λ _, Normal |}.

(** * Theorems *)

(** ** The helpers on small inputs *)

Example port_pattern_examples :
  re_match DRM_PORT_PATTERN <$>
    ["card0-DP-1"; "card12-HDMI-A-1"; "card0"; "card00"; "card"; "version";
     "renderD128"; "xcard0-DP-1"]
  = [true; true; false; true; false; false; false; false].
Proof. reflexivity. Qed.

Example card_pattern_examples :
  re_match DRM_CARD_PATTERN <$>
    ["card0"; "card12"; "card0-DP-1"; "card"; "card0" +:+ nl; "xcard0"]
  = [true; true; false; false; true; false].
Proof. reflexivity. Qed.

Example strip_examples :
  strip <$> ["connected" +:+ nl; "  disconnected " +:+ nl; nl; ""; "a b"]
  = ["connected"; "disconnected"; ""; ""; "a b"].
Proof. reflexivity. Qed.

Example os_path_join_examples :
  [os_path_join DRM_PATH "card0"; os_path_join "/sys/class/drm/" "card0";
   os_path_join "" "card0"; os_path_join DRM_PATH "/card0"]
  = ["/sys/class/drm/card0"; "/sys/class/drm/card0"; "card0"; "/card0"].
Proof. reflexivity. Qed.

Example watcher_init_example : Watcher.init fs_hdmi = Ok watcher0.
Proof. reflexivity. Qed.

(** * Facts about [Port] *)

Section PortFacts.

Variable fs : FileSys.

Lemma port_update_ok (p : Port.t) (line : string) :
  readline fs (os_path_join (Port._path p) "status") = Ok line →
  Port.update fs p =
    ({| Port._path := Port._path p;
        Port._status := Some (strip line);
        Port._previous_status := Port._status p;
        Port._changed := bool_decide (Some (strip line) ≠ Port._status p) |},
     Normal).
Proof. intros H. unfold Port.update, Port.set_changed. cbn [Port._path Port._status]. by rewrite H. Qed.

Lemma port_update_raise (p : Port.t) (e : exn) :
  readline fs (os_path_join (Port._path p) "status") = Raise e →
  Port.update fs p = (Port.set_changed false p, Raised e).
Proof. intros H. unfold Port.update, Port.set_changed. cbn [Port._path Port._status]. by rewrite H. Qed.

Lemma port_update_path (p : Port.t) :
  Port._path ((Port.update fs p).1) = Port._path p.
Proof.
  unfold Port.update, Port.set_changed. cbn [Port._path].
  by destruct (readline fs (os_path_join (Port._path p) "status")).
Qed.

Lemma port_update_normal_inv (p p' : Port.t) :
  Port.update fs p = (p', Normal) →
  ∃ line, readline fs (os_path_join (Port._path p) "status") = Ok line ∧
    Port._path p' = Port._path p ∧
    Port._status p' = Some (strip line) ∧
    Port._previous_status p' = Port._status p ∧
    Port._changed p' = bool_decide (Some (strip line) ≠ Port._status p).
Proof.
  unfold Port.update, Port.set_changed. cbn [Port._path Port._status].
  destruct (readline fs (os_path_join (Port._path p) "status")) as [line|e];
    intros [= <-]; eauto 10.
Qed.

Lemma port_update_clear (p : Port.t) :
  Port.update fs (Port.clear p) = Port.update fs p.
Proof. reflexivity. Qed.

End PortFacts.

Lemma port_updates_snoc (fss : list FileSys) (fs : FileSys) (p : Port.t) :
  Port.updates (fss ++ [fs]) p =
    match Port.updates fss p with
    | (p', Raised e) => (p', Raised e)
    | (p', Normal) => Port.update fs p'
    end.
Proof.
  revert p. induction fss as [|fs0 fss IH]; intros p; cbn.
  - by destruct (Port.update fs p) as [p' [|e]].
  - destruct (Port.update fs0 p) as [p' [|e]]; [apply IH | done].
Qed.

Lemma port_updates_ok (path : string) (fss : list FileSys)
    (lines : list string) :
  Forall2 (λ fs line, readline fs (os_path_join path "status") = Ok line)
    fss lines →
  ∀ p, Port._path p = path →
    ∃ p', Port.updates fss p = (p', Normal) ∧ Port._path p' = path ∧
      Port._status p' = default (Port._status p) (Some <$> (strip <$> last lines)).
Proof.
  induction 1 as [|fs line fss lines Hrd _ IH]; intros p Hp.
  - exists p. by cbn.
  - cbn [Port.updates]. rewrite <- Hp in Hrd.
    rewrite (port_update_ok _ _ _ Hrd).
    edestruct IH as (p' & -> & Hp' & Hst); [by cbn|].
    exists p'. split_and!; [done..|].
    rewrite Hst. cbn. destruct lines as [|l lines]; [done|].
    rewrite last_cons_cons.
    destruct (last (l :: lines)) eqn:E; [done|]. by apply last_None in E.
Qed.

(** ** Claims about one port *)

(** C3.  A port created by [Port.__init__] is updated on successive ticks
    and every read succeeds.  After the update of tick [n] the port holds
    the status read at tick [n], and its [changed] flag is true exactly
    when that status differs from the status read at tick [n-1]; at the
    first tick it is compared with the never-read value [None]. *)
Theorem C3_port_changed_iff (path : string) (fss : list FileSys)
    (lines : list string) (n : nat) :
  Forall2 (λ fs line, readline fs (os_path_join path "status") = Ok line)
    fss lines →
  n < length lines →
  ∃ p, Port.updates (take (S n) fss) (Port.init path) = (p, Normal) ∧
    Port._status p = status_read lines n ∧
    (Port.changed p = true ↔ status_read lines n ≠ status_before path lines n).
Proof.
  intros Hall Hn.
  destruct (lookup_lt_is_Some_2 lines n Hn) as [line Hline].
  assert (Hlen : length fss = length lines) by by eapply Forall2_length.
  destruct (lookup_lt_is_Some_2 fss n) as [fs Hfs]; [lia|].
  rewrite (take_S_r _ _ _ Hfs), port_updates_snoc.
  destruct (port_updates_ok path (take n fss) (take n lines)) with
    (p := Port.init path) as (q & -> & Hq & Hst);
    [by apply Forall2_take | done |].
  assert (Hrd : readline fs (os_path_join (Port._path q) "status") = Ok line).
  { rewrite Hq. by apply (Forall2_lookup_lr _ fss lines n fs line Hall). }
  rewrite (port_update_ok _ _ _ Hrd). eexists. split; [done|].
  unfold Port.changed, status_read. cbn [Port._status Port._changed].
  rewrite Hline. cbn [fmap option_fmap option_map]. split; [done|].
  rewrite bool_decide_eq_true.
  assert (Hprev : Port._status q = status_before path lines n).
  { rewrite Hst. destruct n as [|m]; [done|].
    unfold status_before, status_read.
    rewrite last_lookup, length_take, Nat.min_l by lia.
    cbn [Nat.pred]. rewrite lookup_take_lt by lia.
    destruct (lookup_lt_is_Some_2 lines m) as [l ->]; [lia|]. done. }
  by rewrite Hprev.
Qed.

Lemma C3_port_changed_iff_witness :
  ∃ p, Port.updates (take 3 flip_files) (Port.init dp1) = (p, Normal) ∧
    Port._status p = status_read flip_lines 2 ∧
    (Port.changed p = true ↔
     status_read flip_lines 2 ≠ status_before dp1 flip_lines 2).
Proof.
  apply (C3_port_changed_iff dp1 flip_files flip_lines 2).
  - repeat constructor.
  - cbn. lia.
Defined.

(** C5.  The first successful update of a newly created port sets
    [changed], whatever line is read. *)
Theorem C5_first_read_is_change (path : string) (fs : FileSys)
    (line : string) :
  readline fs (os_path_join path "status") = Ok line →
  ∃ p, Port.update fs (Port.init path) = (p, Normal) ∧
    Port._status p = Some (strip line) ∧ Port.changed p = true.
Proof.
  intros Hrd. rewrite (port_update_ok fs (Port.init path) line Hrd).
  eexists. split; [done|]. split; [done|].
  unfold Port.changed. cbn. by apply bool_decide_eq_true.
Qed.

Lemma C5_first_read_is_change_witness :
  ∃ p, Port.update (one_port (Ok nl)) (Port.init dp1) = (p, Normal) ∧
    Port._status p = Some (strip nl) ∧ Port.changed p = true.
Proof.
  apply (C5_first_read_is_change dp1 (one_port (Ok nl)) nl). reflexivity.
Defined.

(** C9 fails as stated: a port that was never read reports ["none"], which
    is none of connected, disconnected, unknown; and a line that is none
    of the three is reported as it is, not as ["unknown"]. *)
Lemma C9_status_outside_domain :
  (Port.status (Port.init dp1) ∉ status_domain) ∧
  Port.status ((Port.update (one_port (Ok ("bogus" +:+ nl))) (Port.init dp1)).1)
    = "bogus".
Proof.
  split; [|reflexivity].
  unfold status_domain. cbn. rewrite !elem_of_cons, elem_of_nil.
  intros [H|[H|[H|[]]]]; discriminate H.
Qed.

(** C9, amended.  The [status] property is the text last read (the first
    line of the attribute, stripped), whatever it is; it is ["none"] for a
    port that was never read and when the text read is empty; an update
    whose read fails leaves it as it was. *)
Theorem C9_status_is_last_text_read :
  (∀ path, Port.status (Port.init path) = "none") ∧
  (∀ fs p,
     match readline fs (os_path_join (Port._path p) "status") with
     | Ok line =>
         Port.status ((Port.update fs p).1) =
           if decide (strip line = "") then "none" else strip line
     | Raise _ => Port.status ((Port.update fs p).1) = Port.status p
     end).
Proof.
  split; [done|]. intros fs p.
  destruct (readline fs (os_path_join (Port._path p) "status"))
    as [line|e] eqn:Hrd.
  - rewrite (port_update_ok _ _ _ Hrd). unfold Port.status. cbn.
    destruct (String.eqb_spec (strip line) ""); by case_decide.
  - by rewrite (port_update_raise _ _ _ Hrd).
Qed.

(** * Facts about dictionaries *)

Lemma filter_id {A} (P : A → Prop) `{∀ x, Decision (P x)} (l : list A) :
  (∀ x, x ∈ l → P x) → filter P l = l.
Proof.
  induction l as [|a l IH]; intros Hall; [done|].
  rewrite filter_cons_True by (apply Hall, elem_of_cons; by left).
  f_equal. apply IH. intros x Hx. apply Hall, elem_of_cons. by right.
Qed.

Section DictFacts.

Context {V : Type}.
Implicit Types (d : dict V) (k : string) (v : V).

Lemma dict_get_set d k k' v :
  dict_get k' (dict_set k v d) =
    if decide (k' = k) then Some v else dict_get k' d.
Proof.
  induction d as [|[k0 v0] d IH]; cbn.
  - by repeat case_decide.
  - destruct (decide (k = k0)) as [->|Hne]; cbn;
      repeat case_decide; congruence.
Qed.

Lemma dict_keys_set d k v :
  ∀ x, x ∈ dict_keys (dict_set k v d) ↔ x = k ∨ x ∈ dict_keys d.
Proof.
  unfold dict_keys. induction d as [|[k0 v0] d IH]; intros x; cbn.
  - rewrite list_elem_of_singleton, elem_of_nil. tauto.
  - destruct (decide (k = k0)) as [->|Hne]; cbn; rewrite !elem_of_cons.
    + tauto.
    + rewrite IH. tauto.
Qed.

Lemma dict_get_filter (P : string * V → Prop) `{∀ x, Decision (P x)}
    (Q : string → Prop) d k :
  (∀ kv, P kv ↔ Q kv.1) →
  (Q k → dict_get k (filter P d) = dict_get k d) ∧
  (¬ Q k → dict_get k (filter P d) = None).
Proof.
  intros HPQ. induction d as [|[k0 v0] d [IH1 IH2]]; [done|].
  rewrite filter_cons. destruct (decide (P (k0, v0))) as [Hk0|Hk0];
    rewrite (HPQ (k0, v0)) in Hk0; cbn in Hk0 |- *.
  - destruct (decide (k = k0)) as [->|Hne]; [tauto|done].
  - destruct (decide (k = k0)) as [->|Hne]; [|done].
    split; [tauto|auto].
Qed.

Lemma dict_get_None d k : dict_get k d = None ↔ k ∉ dict_keys d.
Proof.
  unfold dict_keys. induction d as [|[k0 v0] d IH]; cbn.
  - split; [intros _; apply not_elem_of_nil|done].
  - rewrite not_elem_of_cons. case_decide as Hk; [|rewrite IH; tauto].
    split; [done|]. intros [? _]. congruence.
Qed.

Lemma dict_get_elem_of d k v : dict_get k d = Some v → (k, v) ∈ d.
Proof.
  induction d as [|[k0 v0] d IH]; cbn; [done|].
  case_decide as Hk.
  - intros [= ->]. subst. apply elem_of_cons. by left.
  - intros ?. apply elem_of_cons. right. auto.
Qed.

Lemma dict_del_Some d k :
  k ∈ dict_keys d → dict_del k d = Some (filter (λ kv, kv.1 ≠ k) d).
Proof. intros Hk. unfold dict_del. by rewrite decide_True. Qed.

Lemma dict_keys_filter (P : string * V → Prop) `{∀ x, Decision (P x)}
    (Q : string → Prop) d :
  (∀ kv, P kv ↔ Q kv.1) →
  ∀ x, x ∈ dict_keys (filter P d) ↔ Q x ∧ x ∈ dict_keys d.
Proof.
  intros HPQ x. unfold dict_keys. rewrite !list_elem_of_fmap. split.
  - intros ([k0 v0] & -> & [HP ?]%list_elem_of_filter).
    apply HPQ in HP. eauto.
  - intros (HQ & [k0 v0] & -> & ?). exists (k0, v0).
    split; [done|]. apply list_elem_of_filter. split; [|done]. by apply HPQ.
Qed.

End DictFacts.

(** * Facts about [Card] *)

Lemma iter_elem_of (ord : SetIter) (X : gset string) (x : string) :
  x ∈ ord X ↔ x ∈ X.
Proof. by rewrite (iter_perm ord X), elem_of_elements. Qed.

Lemma iter_NoDup (ord : SetIter) (X : gset string) : NoDup (ord X).
Proof. rewrite (iter_perm ord X). apply NoDup_elements. Qed.

Lemma iter_empty (ord : SetIter) : ord ∅ = [].
Proof. apply Permutation_nil_r. by rewrite (iter_perm ord ∅), elements_empty. Qed.

Lemma add_ports_get (path : string) (names : list string)
    (ports : dict Port.t) (k : string) :
  dict_get k (Card.add_ports path names ports) =
    if decide (k ∈ names) then Some (Port.init (os_path_join path k))
    else dict_get k ports.
Proof.
  revert ports. induction names as [|name names IH]; intros ports; cbn.
  - by rewrite decide_False by apply not_elem_of_nil.
  - rewrite IH, dict_get_set.
    destruct (decide (k ∈ names)) as [Hin|Hnin].
    + rewrite decide_True; [done|]. apply elem_of_cons. by right.
    + destruct (decide (k = name)) as [->|Hne].
      * rewrite decide_True; [done|]. apply elem_of_cons. by left.
      * rewrite decide_False; [done|]. rewrite elem_of_cons. tauto.
Qed.

Lemma add_ports_keys (path : string) (names : list string)
    (ports : dict Port.t) (x : string) :
  x ∈ dict_keys (Card.add_ports path names ports) ↔
  x ∈ names ∨ x ∈ dict_keys ports.
Proof.
  revert ports.
  induction names as [|name names IH]; intros ports; cbn [Card.add_ports].
  - rewrite elem_of_nil. tauto.
  - rewrite IH, dict_keys_set, elem_of_cons. tauto.
Qed.

Lemma remove_ports_spec (names : list string) (ports : dict Port.t) :
  NoDup names →
  (∀ x, x ∈ names → x ∈ dict_keys ports) →
  Card.remove_ports names ports =
    (filter (λ kv, kv.1 ∉ names) ports, Normal).
Proof.
  intros Hnd. revert ports.
  induction Hnd as [|name names Hnin Hnd IH]; intros ports Hsub;
    cbn [Card.remove_ports].
  - f_equal. symmetry. apply filter_id. intros ? _. apply not_elem_of_nil.
  - rewrite dict_del_Some by (apply Hsub, elem_of_cons; by left).
    rewrite IH.
    + f_equal. rewrite list_filter_filter. apply list_filter_iff.
      intros [k v]. cbn. rewrite not_elem_of_cons. tauto.
    + intros x Hx.
      apply (dict_keys_filter _ (λ k, k ≠ name)); [done|]. split.
      * intros ->. done.
      * apply Hsub, elem_of_cons. by right.
Qed.

Lemma reconcile_spec (ord : SetIter) (names : list string) (c : Card.t) :
  let new : gset string := list_to_set names in
  let old : gset string := list_to_set (dict_keys (Card._ports c)) in
  Card.reconcile ord names c =
    ({| Card._path := Card._path c;
        Card._ports :=
          filter (λ kv, kv.1 ∉ ord (old ∖ new))
            (Card.add_ports (Card._path c) (ord (new ∖ old)) (Card._ports c));
        Card._changed :=
          if decide (old ∖ new ≠ ∅) then true
          else if decide (new ∖ old ≠ ∅) then true else Card._changed c |},
     Normal).
Proof.
  intros new old. unfold Card.reconcile. fold new old.
  assert (Hrm : ∀ ports,
    (∀ x, x ∈ dict_keys (Card._ports c) → x ∈ dict_keys ports) →
    Card.remove_ports (ord (old ∖ new)) ports =
      (filter (λ kv, kv.1 ∉ ord (old ∖ new)) ports, Normal)).
  { intros ports Hsub. apply remove_ports_spec; [apply iter_NoDup|].
    intros x Hx%iter_elem_of. apply Hsub.
    apply elem_of_difference in Hx as [Hx _].
    by apply elem_of_list_to_set in Hx. }
  assert (Hkeys : ∀ x, x ∈ dict_keys (Card._ports c) →
    x ∈ dict_keys (Card.add_ports (Card._path c) (ord (new ∖ old))
                     (Card._ports c))).
  { intros x Hx. apply add_ports_keys. by right. }
  destruct (decide (new ∖ old ≠ ∅)), (decide (old ∖ new ≠ ∅));
    cbn [Card.set_changed Card.set_ports Card._path Card._ports Card._changed];
    by rewrite (Hrm _ Hkeys).
Qed.

Lemma reconcile_get (ord : SetIter) (names : list string) (c : Card.t)
    (name : string) :
  let new : gset string := list_to_set names in
  let old : gset string := list_to_set (dict_keys (Card._ports c)) in
  dict_get name (Card._ports (Card.reconcile ord names c).1) =
    if decide (name ∈ new)
    then if decide (name ∈ old) then dict_get name (Card._ports c)
         else Some (Port.init (os_path_join (Card._path c) name))
    else None.
Proof.
  intros new old. rewrite reconcile_spec. fold new old. cbn [fst Card._ports].
  edestruct (dict_get_filter (V := Port.t)
               (λ kv, kv.1 ∉ ord (old ∖ new)) (λ k, k ∉ ord (old ∖ new)))
    as [Hkeep Hdrop]; [done|].
  assert (Hold : name ∈ old ↔ name ∈ dict_keys (Card._ports c))
    by apply elem_of_list_to_set.
  clearbody new old.
  destruct (decide (name ∈ new)) as [Hnew|Hnew].
  - rewrite Hkeep by (rewrite iter_elem_of, elem_of_difference; tauto).
    rewrite add_ports_get.
    destruct (decide (name ∈ old)) as [Ho|Ho].
    + rewrite decide_False; [done|]. rewrite iter_elem_of, elem_of_difference. tauto.
    + rewrite decide_True; [done|]. rewrite iter_elem_of, elem_of_difference. tauto.
  - destruct (decide (name ∈ old)) as [Ho|Ho].
    + apply Hdrop. rewrite iter_elem_of, elem_of_difference. tauto.
    + rewrite Hkeep by (rewrite iter_elem_of, elem_of_difference; tauto).
      rewrite add_ports_get, decide_False
        by (rewrite iter_elem_of, elem_of_difference; tauto).
      apply dict_get_None. by rewrite <- Hold.
Qed.

(** ** The loop over the ports of a card *)

Lemma update_ports_ok (fs : FileSys) (ports : dict Port.t) (b : bool) :
  Forall (λ kv, (Port.update fs kv.2).2 = Normal) ports →
  Card.update_ports fs ports b =
    ((λ kv, (kv.1, (Port.update fs kv.2).1)) <$> ports,
     b || existsb (λ kv, Port.changed ((Port.update fs kv.2).1)) ports,
     Normal).
Proof.
  intros Hall. revert b.
  induction Hall as [|[name port] rest Hp _ IH]; intros b;
    cbn [Card.update_ports].
  - by rewrite orb_false_r.
  - cbn [snd] in Hp. destruct (Port.update fs port) as [port' o] eqn:Hup.
    cbn [snd] in Hp. subst o. rewrite IH.
    cbn [fmap list_fmap existsb fst snd]. rewrite Hup. cbn [fst].
    by rewrite orb_assoc.
Qed.

Lemma update_ports_normal_inv (fs : FileSys) (ports ports' : dict Port.t)
    (b b' : bool) :
  Card.update_ports fs ports b = (ports', b', Normal) →
  Forall (λ kv, (Port.update fs kv.2).2 = Normal) ports.
Proof.
  revert ports' b b'.
  induction ports as [|[name port] rest IH]; intros ports' b b';
    cbn [Card.update_ports]; [by constructor|].
  destruct (Port.update fs port) as [port' [|e]] eqn:Hup; [|done].
  destruct (Card.update_ports fs rest (b || Port.changed port'))
    as [[rest' b''] o] eqn:Hrest.
  intros [= <- <- ->]. constructor; [cbn [snd]; by rewrite Hup|]. eauto.
Qed.

Lemma update_ports_raise (fs : FileSys) (ports : dict Port.t) (b : bool) :
  Exists (λ kv, (Port.update fs kv.2).2 ≠ Normal) ports →
  ∃ e, (Card.update_ports fs ports b).2 = Raised e.
Proof.
  intros Hex.
  destruct (Card.update_ports fs ports b) as [[ports' b'] [|e]] eqn:Hup;
    [|by eexists].
  apply update_ports_normal_inv in Hup.
  apply Exists_exists in Hex as (kv & Hin & Hkv).
  rewrite Forall_forall in Hup. by destruct Hkv; apply Hup.
Qed.

Lemma pclear_idemp (d : dict Port.t) :
  prod_map id Port.clear <$> (prod_map id Port.clear <$> d) =
  prod_map id Port.clear <$> d.
Proof. rewrite <- list_fmap_compose. apply list_fmap_ext. by intros ? [??]. Qed.

Lemma pclear_keys (d : dict Port.t) :
  dict_keys (prod_map id Port.clear <$> d) = dict_keys d.
Proof.
  unfold dict_keys. rewrite <- list_fmap_compose.
  apply list_fmap_ext. by intros ? [??].
Qed.

Lemma update_ports_clear (fs : FileSys) (d : dict Port.t) (b : bool) :
  let r := Card.update_ports fs d b in
  let r' := Card.update_ports fs (prod_map id Port.clear <$> d) b in
  r'.2 = r.2 ∧ r'.1.2 = r.1.2 ∧
  prod_map id Port.clear <$> r'.1.1 = prod_map id Port.clear <$> r.1.1 ∧
  (r.2 = Normal → r'.1.1 = r.1.1).
Proof.
  revert b. induction d as [|[name port] rest IH]; intros b; [done|].
  cbn [fmap list_fmap prod_map fst snd id Card.update_ports].
  rewrite port_update_clear.
  destruct (Port.update fs port) as [port' [|e]].
  - specialize (IH (b || Port.changed port')). cbn zeta in IH.
    destruct (Card.update_ports fs rest (b || Port.changed port'))
      as [[r1 b1] o1].
    destruct (Card.update_ports fs (prod_map id Port.clear <$> rest)
                (b || Port.changed port')) as [[r2 b2] o2].
    cbn in IH |- *. destruct IH as (-> & -> & Hcl & Heq).
    split_and!; [done..| |]; [by f_equal|].
    intros Ho. f_equal. auto.
  - cbn. split_and!; [done..| |done]. f_equal. apply pclear_idemp.
Qed.

(** ** [Card.update] *)

Lemma card_update_unfold (ord : SetIter) (fs : FileSys) (c : Card.t)
    (names : list string) :
  Card._enum_ports fs c = Ok names →
  Card.update ord fs c =
    let r := (Card.reconcile ord names (Card.set_changed false c)).1 in
    let '(ports, changed, o) :=
      Card.update_ports fs (Card._ports r) (Card._changed r) in
    ({| Card._path := Card._path c; Card._ports := ports;
        Card._changed := changed |}, o).
Proof.
  intros Hen. unfold Card.update.
  change (Card._enum_ports fs (Card.set_changed false c))
    with (Card._enum_ports fs c).
  rewrite Hen, reconcile_spec. reflexivity.
Qed.

Lemma card_update_enum_raise (ord : SetIter) (fs : FileSys) (c : Card.t)
    (e : exn) :
  Card._enum_ports fs c = Raise e →
  Card.update ord fs c = (Card.set_changed false c, Raised e).
Proof.
  intros Hen. unfold Card.update.
  change (Card._enum_ports fs (Card.set_changed false c))
    with (Card._enum_ports fs c).
  by rewrite Hen.
Qed.

(** C10.  The reconciliation inside [Card.update] (between the reset of
    the flag and the loop over the ports) never raises, keeps the entry
    of every name that is both known and enumerated exactly as it was,
    gives every name that is enumerated and not known a port in the
    state of [Port.__init__], and leaves no entry for any other name: the
    known names that are no longer enumerated are deleted.  [Card.update]
    is this step followed by the loop over the resulting entries. *)
Theorem C10_reconcile_frame (ord : SetIter) (fs : FileSys) (c : Card.t)
    (names : list string) :
  Card._enum_ports fs c = Ok names →
  let new : gset string := list_to_set names in
  let old : gset string := list_to_set (dict_keys (Card._ports c)) in
  let r := Card.reconcile ord names (Card.set_changed false c) in
  r.2 = Normal ∧
  Card._path r.1 = Card._path c ∧
  (∀ name,
     (name ∈ old → name ∈ new →
      dict_get name (Card._ports r.1) = dict_get name (Card._ports c)) ∧
     (name ∉ old → name ∈ new →
      dict_get name (Card._ports r.1) =
        Some (Port.init (os_path_join (Card._path c) name))) ∧
     (name ∉ new → dict_get name (Card._ports r.1) = None)) ∧
  Card.update ord fs c =
    (let '(ports, changed, o) :=
       Card.update_ports fs (Card._ports r.1) (Card._changed r.1) in
     ({| Card._path := Card._path c; Card._ports := ports;
         Card._changed := changed |}, o)).
Proof.
  intros Hen new old r. split_and!.
  - unfold r. by rewrite reconcile_spec.
  - unfold r. by rewrite reconcile_spec.
  - intros name. unfold r.
    rewrite (reconcile_get ord names (Card.set_changed false c) name).
    fold new. change (Card._ports (Card.set_changed false c))
      with (Card._ports c). fold old.
    split_and!; intros; repeat case_decide; done.
  - by rewrite (card_update_unfold ord fs c names Hen).
Qed.

Lemma C10_reconcile_frame_witness :
  let names := ["card0-DP-1"; "card0-HDMI-A-1"] in
  let new : gset string := list_to_set names in
  let old : gset string := list_to_set (dict_keys (Card._ports card0_before)) in
  let r :=
    Card.reconcile elements_order names (Card.set_changed false card0_before) in
  r.2 = Normal ∧
  Card._path r.1 = Card._path card0_before ∧
  (∀ name,
     (name ∈ old → name ∈ new →
      dict_get name (Card._ports r.1) =
        dict_get name (Card._ports card0_before)) ∧
     (name ∉ old → name ∈ new →
      dict_get name (Card._ports r.1) =
        Some (Port.init (os_path_join (Card._path card0_before) name))) ∧
     (name ∉ new → dict_get name (Card._ports r.1) = None)) ∧
  Card.update elements_order fs_hdmi card0_before =
    (let '(ports, changed, o) :=
       Card.update_ports fs_hdmi (Card._ports r.1) (Card._changed r.1) in
     ({| Card._path := Card._path card0_before; Card._ports := ports;
         Card._changed := changed |}, o)).
Proof.
  apply (C10_reconcile_frame elements_order fs_hdmi card0_before
           ["card0-DP-1"; "card0-HDMI-A-1"]).
  vm_compute. reflexivity.
Defined.

Lemma card_update_normal_inv (ord : SetIter) (fs : FileSys) (c c' : Card.t)
    (names : list string) :
  Card._enum_ports fs c = Ok names →
  Card.update ord fs c = (c', Normal) →
  let new : gset string := list_to_set names in
  let old : gset string := list_to_set (dict_keys (Card._ports c)) in
  let d :=
    filter (λ kv : string * Port.t, kv.1 ∉ ord (old ∖ new))
      (Card.add_ports (Card._path c) (ord (new ∖ old)) (Card._ports c)) in
  Forall (λ kv, (Port.update fs kv.2).2 = Normal) d ∧
  c' =
    {| Card._path := Card._path c;
       Card._ports := (λ kv, (kv.1, (Port.update fs kv.2).1)) <$> d;
       Card._changed :=
         (if decide (old ∖ new ≠ ∅) then true
          else if decide (new ∖ old ≠ ∅) then true else false)
         || existsb (λ kv, Port.changed ((Port.update fs kv.2).1)) d |}.
Proof.
  intros Hen Hup new old d.
  rewrite (card_update_unfold ord fs c names Hen) in Hup.
  rewrite reconcile_spec in Hup.
  cbn [fst Card._ports Card._changed Card._path Card.set_changed] in Hup.
  fold new old d in Hup.
  set (b0 := if decide (old ∖ new ≠ ∅) then true
             else if decide (new ∖ old ≠ ∅) then true else false) in *.
  destruct (Card.update_ports fs d b0) as [[ports' b'] o] eqn:Hports.
  injection Hup as <- ->.
  pose proof (update_ports_normal_inv _ _ _ _ _ Hports) as Hall.
  rewrite (update_ports_ok _ _ _ Hall) in Hports.
  injection Hports as <- <-. done.
Qed.

Lemma reconciled_keys (ord : SetIter) (c : Card.t) (new : gset string)
    (x : string) :
  let old : gset string := list_to_set (dict_keys (Card._ports c)) in
  x ∈ dict_keys
        (filter (λ kv : string * Port.t, kv.1 ∉ ord (old ∖ new))
           (Card.add_ports (Card._path c) (ord (new ∖ old)) (Card._ports c)))
  ↔ x ∈ new.
Proof.
  intros old.
  rewrite (dict_keys_filter _ (λ k, k ∉ ord (old ∖ new))) by done.
  rewrite add_ports_keys, !iter_elem_of, !elem_of_difference.
  assert (Hold : x ∈ old ↔ x ∈ dict_keys (Card._ports c))
    by apply elem_of_list_to_set.
  rewrite <- Hold. clearbody old.
  destruct (decide (x ∈ new)), (decide (x ∈ old)); tauto.
Qed.

(** C4.  When [Card.update] returns, the card's [changed] flag is true
    exactly when the set of known port names and the set of enumerated
    port names differ (their symmetric difference is not empty) or some
    retained port (known and enumerated) has its own flag set after its
    update. *)
Theorem C4_card_changed_iff (ord : SetIter) (fs : FileSys) (c c' : Card.t)
    (names : list string) :
  Card._enum_ports fs c = Ok names →
  Card.update ord fs c = (c', Normal) →
  let new : gset string := list_to_set names in
  let old : gset string := list_to_set (dict_keys (Card._ports c)) in
  Card.changed c' = true ↔
    (old ∖ new) ∪ (new ∖ old) ≠ ∅ ∨
    ∃ name port, name ∈ old ∧ name ∈ new ∧
      (name, port) ∈ Card._ports c' ∧ Port.changed port = true.
Proof.
  intros Hen Hup new old.
  destruct (card_update_normal_inv ord fs c c' names Hen Hup) as [Hall ->].
  fold new old. unfold Card.changed. cbn [Card._changed Card._ports].
  pose proof (reconciled_keys ord c new) as Hkeys. cbn zeta in Hkeys.
  fold old in Hkeys.
  set (d := filter _ _) in *.
  assert (Hsym : (old ∖ new) ∪ (new ∖ old) ≠ ∅ ↔
                 old ∖ new ≠ ∅ ∨ new ∖ old ≠ ∅).
  { rewrite empty_union_L.
    destruct (decide (old ∖ new = ∅)), (decide (new ∖ old = ∅)); tauto. }
  rewrite Hsym, orb_true_iff, existsb_exists. split.
  - intros [Hflag|((name & port) & Hin & Hch)].
    + left. repeat case_decide; tauto || done.
    + destruct (decide (name ∈ old)) as [Hold|Hold].
      * right. exists name, (Port.update fs port).1.
        assert (name ∈ new) as Hnew.
        { apply Hkeys. unfold dict_keys. apply list_elem_of_fmap.
          exists (name, port). split; [done|]. by apply list_elem_of_In. }
        split_and!; [done..| |done].
        apply list_elem_of_fmap. exists (name, port).
        split; [done|]. by apply list_elem_of_In.
      * left. right. intros Hempty.
        assert (name ∈ new) as Hnew.
        { apply Hkeys. unfold dict_keys. apply list_elem_of_fmap.
          exists (name, port). split; [done|]. by apply list_elem_of_In. }
        assert (name ∈ new ∖ old) as Hadd by by apply elem_of_difference.
        rewrite Hempty in Hadd. by apply not_elem_of_empty in Hadd.
  - intros [Hne|(name & port & _ & _ & Hin & Hch)].
    + left. repeat case_decide; tauto || done.
    + right. apply list_elem_of_fmap in Hin as ([k p] & [= -> ->] & Hin).
      exists (k, p). split; [by apply list_elem_of_In|done].
Qed.

Lemma C4_card_changed_iff_witness :
  let names := ["card0-DP-1"; "card0-HDMI-A-1"] in
  let c' := (Card.update elements_order fs_hdmi card0_before).1 in
  let new : gset string := list_to_set names in
  let old : gset string := list_to_set (dict_keys (Card._ports card0_before)) in
  Card.changed c' = true ↔
    (old ∖ new) ∪ (new ∖ old) ≠ ∅ ∨
    ∃ name port, name ∈ old ∧ name ∈ new ∧
      (name, port) ∈ Card._ports c' ∧ Port.changed port = true.
Proof.
  apply (C4_card_changed_iff elements_order fs_hdmi card0_before
           (Card.update elements_order fs_hdmi card0_before).1
           ["card0-DP-1"; "card0-HDMI-A-1"]).
  - vm_compute. reflexivity.
  - vm_compute. reflexivity.
Defined.

(** ** Forgetting the flags *)

Lemma dict_set_pclear (k : string) (p : Port.t) (d : dict Port.t) :
  dict_set k (Port.clear p) (prod_map id Port.clear <$> d) =
  prod_map id Port.clear <$> dict_set k p d.
Proof.
  induction d as [|[k0 p0] d IH]; [done|].
  cbn [fmap list_fmap prod_map dict_set fst snd id].
  case_decide; [done|]. cbn [fmap list_fmap prod_map fst snd id].
  f_equal. apply IH.
Qed.

Lemma add_ports_pclear (path : string) (names : list string)
    (d : dict Port.t) :
  Card.add_ports path names (prod_map id Port.clear <$> d) =
  prod_map id Port.clear <$> Card.add_ports path names d.
Proof.
  revert d. induction names as [|name names IH]; intros d; [done|].
  cbn [Card.add_ports]. rewrite <- IH. f_equal.
  apply (dict_set_pclear name (Port.init (os_path_join path name)) d).
Qed.

Lemma filter_pclear (P : string * Port.t → Prop) `{∀ x, Decision (P x)}
    (d : dict Port.t) :
  (∀ k p, P (k, Port.clear p) ↔ P (k, p)) →
  filter P (prod_map id Port.clear <$> d) =
  prod_map id Port.clear <$> filter P d.
Proof.
  intros HP. induction d as [|[k0 p0] d IH]; [done|].
  cbn [fmap list_fmap prod_map fst snd id]. rewrite !filter_cons.
  destruct (decide (P (k0, Port.clear p0))) as [Hc|Hc];
    rewrite HP in Hc; destruct (decide (P (k0, p0))); try done.
  cbn [fmap list_fmap prod_map fst snd id]. by f_equal.
Qed.

Lemma card_update_clear (ord : SetIter) (fs : FileSys) (c : Card.t) :
  let r := Card.update ord fs c in
  let r' := Card.update ord fs (Card.clear c) in
  r'.2 = r.2 ∧ Card.changed r'.1 = Card.changed r.1 ∧
  Card.clear r'.1 = Card.clear r.1 ∧ (r.2 = Normal → r'.1 = r.1).
Proof.
  destruct (Card._enum_ports fs c) as [names|e] eqn:Hen.
  - assert (Hen' : Card._enum_ports fs (Card.clear c) = Ok names) by done.
    rewrite (card_update_unfold ord fs c names Hen).
    rewrite (card_update_unfold ord fs (Card.clear c) names Hen').
    rewrite !reconcile_spec.
    cbn [fst Card.clear Card.set_changed Card._path Card._ports Card._changed].
    rewrite pclear_keys, add_ports_pclear.
    rewrite filter_pclear by done.
    match goal with
    | |- context [Card.update_ports fs (_ <$> ?d) ?b] =>
        pose proof (update_ports_clear fs d b) as Hcl; cbn zeta in Hcl;
        destruct (Card.update_ports fs d b) as [[p1 b1] o1];
        destruct (Card.update_ports fs (prod_map id Port.clear <$> d) b)
          as [[p2 b2] o2]
    end.
    cbn in Hcl |- *. destruct Hcl as (-> & -> & Hcl & Heq).
    split_and!; [done..| |].
    + unfold Card.clear. cbn. by f_equal.
    + intros Ho. f_equal. auto.
  - assert (Hen' : Card._enum_ports fs (Card.clear c) = Raise e) by done.
    rewrite (card_update_enum_raise ord fs c e Hen).
    rewrite (card_update_enum_raise ord fs (Card.clear c) e Hen').
    cbn. split_and!; [done..| |done].
    unfold Card.clear. cbn. f_equal. apply pclear_idemp.
Qed.

Lemma card_clear_idemp (c : Card.t) : Card.clear (Card.clear c) = Card.clear c.
Proof. unfold Card.clear. cbn. f_equal. apply pclear_idemp. Qed.

Lemma poll_cards_clear (ord : SetIter) (fs : FileSys) (cards : list Card.t)
    (b : bool) :
  let r := Watcher.poll_cards ord fs cards b in
  let r' := Watcher.poll_cards ord fs (Card.clear <$> cards) b in
  r'.2 = r.2 ∧ r'.1.2 = r.1.2 ∧
  Card.clear <$> r'.1.1 = Card.clear <$> r.1.1 ∧
  (r.2 = Normal → r'.1.1 = r.1.1).
Proof.
  revert b. induction cards as [|card rest IH]; intros b; [done|].
  cbn [fmap list_fmap Watcher.poll_cards].
  pose proof (card_update_clear ord fs card) as Hc. cbn zeta in Hc.
  destruct (Card.update ord fs card) as [c1 o1].
  destruct (Card.update ord fs (Card.clear card)) as [c2 o2].
  cbn [fst snd] in Hc. destruct Hc as (-> & Hch & Hcl & Heq).
  destruct o1 as [|e].
  - rewrite (Heq eq_refl). specialize (IH (b || Card.changed c1)).
    cbn zeta in IH.
    destruct (Watcher.poll_cards ord fs rest (b || Card.changed c1))
      as [[r1 b1] q1].
    destruct (Watcher.poll_cards ord fs (Card.clear <$> rest)
                (b || Card.changed c1)) as [[r2 b2] q2].
    cbn in IH |- *. destruct IH as (-> & -> & Hcl' & Heq').
    split_and!; [done..| |]; [by f_equal|].
    intros Ho. f_equal. auto.
  - cbn. split_and!; [done..| |done]. rewrite Hcl. f_equal.
    rewrite <- list_fmap_compose. apply list_fmap_ext.
    intros ? c0 _. apply card_clear_idemp.
Qed.

(** ** Claim about the reset of the flags *)

(** C6.  At each level the update starts by clearing its [changed] flag,
    so what it leaves does not depend on the flags of the tick before.
    For a port, the update of the port with any flag is the update of
    the port; when the read fails the flag is left false.  For a card and
    for the watcher, updating the state with every flag forgotten gives
    the same outcome and the same [changed] flag, the same state up to
    flags, and the very same state when the update returns. *)
Theorem C6_changed_is_reset_each_update (ord : SetIter) (fs : FileSys) :
  (∀ p b, Port.update fs (Port.set_changed b p) = Port.update fs p) ∧
  (∀ p e, (Port.update fs p).2 = Raised e →
          Port.changed ((Port.update fs p).1) = false) ∧
  (∀ c,
     let r := Card.update ord fs c in
     let r' := Card.update ord fs (Card.clear c) in
     r'.2 = r.2 ∧ Card.changed r'.1 = Card.changed r.1 ∧
     Card.clear r'.1 = Card.clear r.1 ∧ (r.2 = Normal → r'.1 = r.1)) ∧
  (∀ w,
     let r := Watcher.poll ord fs w in
     let r' := Watcher.poll ord fs (Watcher.clear w) in
     r'.2 = r.2 ∧ Watcher.changed r'.1 = Watcher.changed r.1 ∧
     Watcher.clear r'.1 = Watcher.clear r.1 ∧ (r.2 = Normal → r'.1 = r.1)).
Proof.
  split_and!.
  - done.
  - intros p e. unfold Port.update, Port.set_changed. cbn [Port._path].
    by destruct (readline fs (os_path_join (Port._path p) "status")).
  - apply card_update_clear.
  - intros w. unfold Watcher.poll, Watcher.clear. cbn [Watcher._cards].
    pose proof (poll_cards_clear ord fs (Watcher._cards w) false) as Hc.
    cbn zeta in Hc.
    destruct (Watcher.poll_cards ord fs (Watcher._cards w) false)
      as [[r1 b1] q1].
    destruct (Watcher.poll_cards ord fs (Card.clear <$> Watcher._cards w)
                false) as [[r2 b2] q2].
    cbn in Hc |- *. destruct Hc as (-> & -> & Hcl & Heq).
    split_and!; [done..| |]; [by f_equal|].
    intros Ho. f_equal. auto.
Qed.

(** ** A file system that stays as it is *)

Lemma port_update_settled (fs fs' : FileSys) (p : Port.t) :
  same_files fs fs' → port_settled fs p →
  Port.update fs' p =
    ({| Port._path := Port._path p; Port._status := Port._status p;
        Port._previous_status := Port._status p; Port._changed := false |},
     Normal).
Proof.
  intros [_ Hrd] (line & Hline & Hst). rewrite Hrd in Hline.
  rewrite (port_update_ok fs' p line Hline), <- Hst. do 2 f_equal.
  apply bool_decide_eq_false. by intros [].
Qed.

Lemma update_ports_settled (fs fs' : FileSys) (d : dict Port.t) :
  same_files fs fs' →
  Forall (λ kv, port_settled fs kv.2) d →
  ∃ d', Card.update_ports fs' d false = (d', false, Normal) ∧
    dict_keys d' = dict_keys d ∧ Forall (λ kv, port_settled fs kv.2) d'.
Proof.
  intros Hsame. induction 1 as [|[name port] d Hp Hd IH].
  - by exists [].
  - cbn [Card.update_ports snd] in *.
    rewrite (port_update_settled fs fs' port Hsame Hp).
    unfold Port.changed. cbn [orb Port._changed].
    destruct IH as (d' & -> & Hk & Hall). eexists. split; [done|].
    split; [cbn; by f_equal|]. constructor; [|done].
    destruct Hp as (line & ? & ?). by exists line.
Qed.

Lemma enum_ports_same (fs fs' : FileSys) (c : Card.t) :
  same_files fs fs' → Card._enum_ports fs' c = Card._enum_ports fs c.
Proof. intros [Hls _]. unfold Card._enum_ports. by rewrite Hls. Qed.

Lemma card_update_settled (ord : SetIter) (fs fs' : FileSys) (c : Card.t) :
  same_files fs fs' → card_settled fs c →
  ∃ c', Card.update ord fs' c = (c', Normal) ∧ Card.changed c' = false ∧
    card_settled fs c'.
Proof.
  intros Hsame [(names & Hen & Hkeys) Hports].
  assert (Hen' : Card._enum_ports fs' c = Ok names)
    by by rewrite (enum_ports_same fs fs' c Hsame).
  rewrite (card_update_unfold ord fs' c names Hen'), reconcile_spec.
  cbn [fst Card._ports Card._changed Card._path Card.set_changed].
  rewrite Hkeys, difference_diag_L, iter_empty.
  rewrite !decide_False by (by intros []).
  cbn [Card.add_ports]. rewrite filter_id by (intros ? _; apply not_elem_of_nil).
  destruct (update_ports_settled fs fs' (Card._ports c) Hsame Hports)
    as (d' & -> & Hk & Hall).
  eexists. split; [done|]. split; [done|]. split; [|done].
  exists names. cbn [Card._ports]. split; [done|]. by rewrite Hk.
Qed.

Lemma poll_cards_settled (ord : SetIter) (fs fs' : FileSys)
    (cards : list Card.t) :
  same_files fs fs' → Forall (card_settled fs) cards →
  ∃ cards', Watcher.poll_cards ord fs' cards false = (cards', false, Normal) ∧
    Forall (card_settled fs) cards'.
Proof.
  intros Hsame. induction 1 as [|card cards Hc _ IH].
  - by exists [].
  - cbn [Watcher.poll_cards].
    destruct (card_update_settled ord fs fs' card Hsame Hc)
      as (c' & -> & Hch & Hset).
    rewrite Hch. cbn [orb]. destruct IH as (cards' & -> & Hall).
    eexists. split; [done|]. by constructor.
Qed.

Lemma card_update_settles (ord : SetIter) (fs : FileSys) (c c' : Card.t) :
  Card.update ord fs c = (c', Normal) → card_settled fs c'.
Proof.
  intros Hup.
  destruct (Card._enum_ports fs c) as [names|e] eqn:Hen;
    [|by rewrite (card_update_enum_raise ord fs c e Hen) in Hup].
  destruct (card_update_normal_inv ord fs c c' names Hen Hup) as [Hall ->].
  split.
  - exists names. split; [done|]. cbn [Card._ports].
    apply set_eq. intros x. rewrite elem_of_list_to_set.
    rewrite <- (reconciled_keys ord c (list_to_set names) x).
    unfold dict_keys. rewrite <- list_fmap_compose. done.
  - cbn [Card._ports]. apply Forall_fmap.
    eapply Forall_impl; [exact Hall|]. intros [name port] Hn.
    cbn [snd compose] in *.
    destruct (Port.update fs port) as [port' o] eqn:Hp. cbn in Hn. subst o.
    apply port_update_normal_inv in Hp as (line & Hrd & Hpath & Hst & _).
    exists line. cbn [fst]. by rewrite Hpath.
Qed.

Lemma poll_cards_settles (ord : SetIter) (fs : FileSys)
    (cards cards' : list Card.t) (b b' : bool) :
  Watcher.poll_cards ord fs cards b = (cards', b', Normal) →
  Forall (card_settled fs) cards'.
Proof.
  revert cards' b b'. induction cards as [|card cards IH]; intros cards' b b';
    cbn [Watcher.poll_cards].
  - intros [= <- _]. constructor.
  - destruct (Card.update ord fs card) as [c' [|e]] eqn:Hc; [|done].
    destruct (Watcher.poll_cards ord fs cards (b || Card.changed c'))
      as [[rest' b''] o] eqn:Hrest.
    intros [= <- <- ->]. constructor; [by eapply card_update_settles|eauto].
Qed.

Lemma poll_settles (ord : SetIter) (fs : FileSys) (w w' : Watcher.t) :
  Watcher.poll ord fs w = (w', Normal) → watcher_settled fs w'.
Proof.
  unfold Watcher.poll, watcher_settled.
  destruct (Watcher.poll_cards ord fs (Watcher._cards w) false)
    as [[cards' b'] o] eqn:Hp.
  intros [= <- ->]. by eapply poll_cards_settles.
Qed.

Lemma poll_settled (ord : SetIter) (fs fs' : FileSys) (w : Watcher.t) :
  same_files fs fs' → watcher_settled fs w →
  ∃ w', Watcher.poll ord fs' w = (w', Normal) ∧ Watcher.changed w' = false ∧
    watcher_settled fs w'.
Proof.
  intros Hsame Hw. unfold Watcher.poll.
  destruct (poll_cards_settled ord fs fs' _ Hsame Hw) as (cards' & -> & Hall).
  eexists. by split_and!.
Qed.

Lemma polls_settled (fs : FileSys) (ticks : list (SetIter * FileSys))
    (w : Watcher.t) :
  Forall (λ t, same_files fs t.2) ticks → watcher_settled fs w →
  ∃ w', Watcher.polls ticks w = (w', Normal) ∧ watcher_settled fs w' ∧
    (ticks ≠ [] → Watcher.changed w' = false).
Proof.
  intros Hall. revert w.
  induction Hall as [|[ord fs'] ticks Hsame Hall IH]; intros w Hw.
  - by exists w.
  - cbn [Watcher.polls].
    destruct (poll_settled ord fs fs' w Hsame Hw) as (w1 & -> & Hch & Hw1).
    destruct (IH w1 Hw1) as (w' & Heq & Hw' & Hch'). rewrite Heq.
    exists w'. split_and!; [done..|]. intros _.
    destruct ticks as [|t ticks]; [|by apply Hch'].
    cbn in Heq. by injection Heq as <-.
Qed.

(** C7.  After a poll of the file system [fs] that returned, on every
    later tick up to which the file system still answers every listing
    and every read as [fs] did, the poll returns and leaves the watcher's
    [changed] flag false. *)
Theorem C7_poll_idempotent (ord : SetIter) (fs : FileSys) (w w1 : Watcher.t)
    (ticks : list (SetIter * FileSys)) (n : nat) :
  Watcher.poll ord fs w = (w1, Normal) →
  Forall (λ t, same_files fs t.2) ticks →
  n < length ticks →
  ∃ w', Watcher.polls (take (S n) ticks) w1 = (w', Normal) ∧
    Watcher.changed w' = false.
Proof.
  intros Hpoll Hall Hn.
  destruct (polls_settled fs (take (S n) ticks) w1) as (w' & Hw' & _ & Hch).
  - by apply Forall_take.
  - by eapply poll_settles.
  - exists w'. split; [done|]. apply Hch.
    destruct ticks; cbn in *; [lia|done].
Qed.

Lemma C7_poll_idempotent_witness :
  ∃ w', Watcher.polls
          (take 2 [(elements_order, fs_hdmi); (elements_order, fs_hdmi)])
          (Watcher.poll elements_order fs_hdmi watcher0).1 = (w', Normal) ∧
    Watcher.changed w' = false.
Proof.
  apply (C7_poll_idempotent elements_order fs_hdmi watcher0
           (Watcher.poll elements_order fs_hdmi watcher0).1
           [(elements_order, fs_hdmi); (elements_order, fs_hdmi)] 1).
  - vm_compute. reflexivity.
  - repeat constructor.
  - cbn. lia.
Defined.

(** ** A read that fails *)

Lemma poll_cards_normal_inv (ord : SetIter) (fs : FileSys)
    (cards cards' : list Card.t) (b b' : bool) :
  Watcher.poll_cards ord fs cards b = (cards', b', Normal) →
  Forall (λ c, (Card.update ord fs c).2 = Normal) cards.
Proof.
  revert cards' b b'. induction cards as [|card cards IH]; intros cards' b b';
    cbn [Watcher.poll_cards]; [by constructor|].
  destruct (Card.update ord fs card) as [c' [|e]] eqn:Hc; [|done].
  destruct (Watcher.poll_cards ord fs cards (b || Card.changed c'))
    as [[rest' b''] o] eqn:Hrest.
  intros [= <- <- ->]. constructor; [by rewrite Hc|eauto].
Qed.

Lemma poll_raise (ord : SetIter) (fs : FileSys) (w : Watcher.t) (c : Card.t) :
  c ∈ Watcher._cards w → (Card.update ord fs c).2 ≠ Normal →
  ∃ e, (Watcher.poll ord fs w).2 = Raised e.
Proof.
  intros Hin Hc. unfold Watcher.poll.
  destruct (Watcher.poll_cards ord fs (Watcher._cards w) false)
    as [[cards' b'] [|e]] eqn:Hp; [|by eexists].
  apply poll_cards_normal_inv in Hp. rewrite Forall_forall in Hp.
  destruct Hc. by apply Hp.
Qed.

(** The entry that the tick updates under a name it enumerates: the one
    the card already had, or a new port. *)
Lemma reconciled_entry (ord : SetIter) (c : Card.t) (names : list string)
    (name : string) :
  name ∈ names →
  (name,
   default (Port.init (os_path_join (Card._path c) name))
     (dict_get name (Card._ports c)))
  ∈ Card._ports (Card.reconcile ord names (Card.set_changed false c)).1.
Proof.
  intros Hin. apply dict_get_elem_of.
  rewrite (reconcile_get ord names (Card.set_changed false c) name).
  change (Card._ports (Card.set_changed false c)) with (Card._ports c).
  change (Card._path (Card.set_changed false c)) with (Card._path c).
  rewrite decide_True by by apply elem_of_list_to_set.
  case_decide as Hold.
  - apply elem_of_list_to_set in Hold.
    destruct (dict_get name (Card._ports c)) eqn:Hget; [done|].
    by apply dict_get_None in Hget.
  - rewrite elem_of_list_to_set in Hold. apply dict_get_None in Hold.
    by rewrite Hold.
Qed.

(** C2 fails as stated: the tick does not continue.  The watcher has
    polled once; at the first scheduled tick the DP connector cannot be
    read.  The error leaves [run]: it ends there although three rounds
    were asked for, only the first poll completed, and the HDMI
    connector, which has a display by now, was never looked at. *)
Lemma C2_read_failure_ends_run :
  let r :=
    Run.run (world_of [fs_hdmi; fs_dp_unreadable; fs_hdmi]) default_args 3
      watcher0 in
  r.2 = Raised (OSError "/sys/class/drm/card0/card0-DP-1/status") ∧
  r.1.2 = [Polled true] ∧
  polls r.1.1 = 2 ∧
  (Card._ports <$> Watcher._cards (watcher r.1.1)) =
    [[("card0-DP-1",
       {| Port._path := dp1; Port._status := Some "connected";
          Port._previous_status := None; Port._changed := false |});
      ("card0-HDMI-A-1",
       {| Port._path := "/sys/class/drm/card0/card0-HDMI-A-1";
          Port._status := Some "disconnected";
          Port._previous_status := None; Port._changed := true |})]].
Proof. vm_compute. by split_and!. Qed.

Lemma update_ports_stop (fs : FileSys) (pre post : dict Port.t)
    (name : string) (p : Port.t) (e : exn) (b : bool) :
  Forall (λ kv, (Port.update fs kv.2).2 = Normal) pre →
  readline fs (os_path_join (Port._path p) "status") = Raise e →
  Card.update_ports fs (pre ++ (name, p) :: post) b =
    (((λ kv, (kv.1, (Port.update fs kv.2).1)) <$> pre)
       ++ (name, Port.set_changed false p) :: post,
     b || existsb (λ kv, Port.changed ((Port.update fs kv.2).1)) pre,
     Raised e).
Proof.
  intros Hpre Hrd. revert b.
  induction Hpre as [|[k q] pre Hq _ IH]; intros b;
    cbn [app Card.update_ports fmap list_fmap existsb fst snd].
  - by rewrite (port_update_raise fs p e Hrd), orb_false_r.
  - cbn [snd] in Hq. destruct (Port.update fs q) as [q' o]. cbn [fst snd] in *.
    subst o. rewrite IH. by rewrite orb_assoc.
Qed.

Lemma poll_cards_stop (ord : SetIter) (fs : FileSys)
    (cpre cpre' crest : list Card.t) (c c' : Card.t) (e : exn) (b : bool) :
  Forall2 (λ a a', Card.update ord fs a = (a', Normal)) cpre cpre' →
  Card.update ord fs c = (c', Raised e) →
  Watcher.poll_cards ord fs (cpre ++ c :: crest) b =
    (cpre' ++ c' :: crest, b || existsb Card.changed cpre', Raised e).
Proof.
  intros Hpre Hc. revert b.
  induction Hpre as [|a a' cpre cpre' Ha _ IH]; intros b;
    cbn [app Watcher.poll_cards existsb].
  - by rewrite Hc, orb_false_r.
  - rewrite Ha, IH. by rewrite orb_assoc.
Qed.

(** C2, amended.  A port whose status attribute cannot be read is left
    with its status and previous status as they were and its flag false,
    and its update raises the error.  Nothing recovers from it.  In a
    tick, let the port be the first one of its card whose read fails,
    the cards before that card being updated without error: then the
    card's update raises that very error, with the ports before updated
    and the ports after exactly as the reconciliation left them; the
    watcher's poll raises it too, with the cards after untouched; and
    [run] ends with it, be it in the first poll or in a tick of the loop
    that is due, however many rounds were still to come, with no command
    run and no sleep. *)
Theorem C2_read_failure_propagates (ord : SetIter) (fs : FileSys)
    (w : Watcher.t) (cpre cpre' crest : list Card.t) (c : Card.t)
    (names : list string) (pre post : dict Port.t) (name : string)
    (p : Port.t) (e : exn) :
  Watcher._cards w = cpre ++ c :: crest →
  Forall2 (λ a a', Card.update ord fs a = (a', Normal)) cpre cpre' →
  Card._enum_ports fs c = Ok names →
  Card._ports (Card.reconcile ord names (Card.set_changed false c)).1
    = pre ++ (name, p) :: post →
  Forall (λ kv, (Port.update fs kv.2).2 = Normal) pre →
  readline fs (os_path_join (Port._path p) "status") = Raise e →
  let c' :=
    {| Card._path := Card._path c;
       Card._ports :=
         ((λ kv, (kv.1, (Port.update fs kv.2).1)) <$> pre)
           ++ (name, Port.set_changed false p) :: post;
       Card._changed :=
         Card._changed (Card.reconcile ord names (Card.set_changed false c)).1
         || existsb (λ kv, Port.changed ((Port.update fs kv.2).1)) pre |} in
  let w' :=
    {| Watcher._cards := cpre' ++ c' :: crest;
       Watcher._changed := existsb Card.changed cpre' |} in
  (∀ q e0, readline fs (os_path_join (Port._path q) "status") = Raise e0 →
     Port.update fs q = (Port.set_changed false q, Raised e0)) ∧
  Card.update ord fs c = (c', Raised e) ∧
  Watcher.poll ord fs w = (w', Raised e) ∧
  (∀ W args n, order W 0 = ord → files W 0 = fs →
     Run.run W args n w =
       ({| watcher := w'; deadline := 0%Qc; clock_reads := 0; polls := 1;
           spawns := 0 |}, [], Raised e)) ∧
  (∀ W args n st, watcher st = w → order W (polls st) = ord →
     files W (polls st) = fs →
     (deadline st ≤ clock W (clock_reads st))%Qc →
     Run.loop W args (S n) st =
       ({| watcher := w'; deadline := deadline st;
           clock_reads := S (clock_reads st); polls := S (polls st);
           spawns := spawns st |}, [], Raised e)).
Proof.
  intros Hcards Hcpre Hen Hports Hpre Hrd c' w'.
  assert (Hcard : Card.update ord fs c = (c', Raised e)).
  { rewrite (card_update_unfold ord fs c names Hen). cbn zeta.
    rewrite Hports, (update_ports_stop fs pre post name p e _ Hpre Hrd).
    done. }
  assert (Hpoll : Watcher.poll ord fs w = (w', Raised e)).
  { unfold Watcher.poll. rewrite Hcards.
    by rewrite (poll_cards_stop ord fs cpre cpre' crest c c' e false Hcpre Hcard). }
  split_and!; [|done|done| |].
  - intros q e0. apply port_update_raise.
  - intros W args n Hord Hfs.
    unfold Run.run, Run.prologue, Run.do_poll, Run.start.
    cbn [polls watcher]. by rewrite Hord, Hfs, Hpoll.
  - intros W args n st Hw Hord Hfs Hdue.
    cbn [Run.loop]. unfold Run.round, Run.monotonic, Run.fire, Run.do_poll.
    cbn [deadline watcher polls clock_reads spawns].
    rewrite decide_True by done.
    cbn [deadline watcher polls clock_reads spawns].
    by rewrite Hw, Hord, Hfs, Hpoll.
Qed.

Lemma C2_read_failure_propagates_witness :
  let ord := elements_order in
  let fs := fs_vga_unreadable in
  let w := two_cards_before in
  let c := card0_before in
  let names := ["card0-DP-1"; "card0-VGA-1"; "card0-HDMI-A-1"] in
  let pre := [("card0-DP-1", dp1_before)] in
  let p := vga1_before in
  let post :=
    [("card0-HDMI-A-1", Port.init "/sys/class/drm/card0/card0-HDMI-A-1")] in
  let e := OSError "/sys/class/drm/card0/card0-VGA-1/status" in
  let c' :=
    {| Card._path := Card._path c;
       Card._ports :=
         ((λ kv, (kv.1, (Port.update fs kv.2).1)) <$> pre)
           ++ ("card0-VGA-1", Port.set_changed false p) :: post;
       Card._changed :=
         Card._changed (Card.reconcile ord names (Card.set_changed false c)).1
         || existsb (λ kv, Port.changed ((Port.update fs kv.2).1)) pre |} in
  let w' :=
    {| Watcher._cards := [] ++ c' :: [Card.init "/sys/class/drm/card1"];
       Watcher._changed := existsb Card.changed [] |} in
  (∀ q e0, readline fs (os_path_join (Port._path q) "status") = Raise e0 →
     Port.update fs q = (Port.set_changed false q, Raised e0)) ∧
  Card.update ord fs c = (c', Raised e) ∧
  Watcher.poll ord fs w = (w', Raised e) ∧
  (∀ W args n, order W 0 = ord → files W 0 = fs →
     Run.run W args n w =
       ({| watcher := w'; deadline := 0%Qc; clock_reads := 0; polls := 1;
           spawns := 0 |}, [], Raised e)) ∧
  (∀ W args n st, watcher st = w → order W (polls st) = ord →
     files W (polls st) = fs →
     (deadline st ≤ clock W (clock_reads st))%Qc →
     Run.loop W args (S n) st =
       ({| watcher := w'; deadline := deadline st;
           clock_reads := S (clock_reads st); polls := S (polls st);
           spawns := spawns st |}, [], Raised e)).
Proof.
  apply (C2_read_failure_propagates elements_order fs_vga_unreadable
           two_cards_before [] [] [Card.init "/sys/class/drm/card1"]
           card0_before ["card0-DP-1"; "card0-VGA-1"; "card0-HDMI-A-1"]
           [("card0-DP-1", dp1_before)]
           [("card0-HDMI-A-1",
             Port.init "/sys/class/drm/card0/card0-HDMI-A-1")]
           "card0-VGA-1" vga1_before
           (OSError "/sys/class/drm/card0/card0-VGA-1/status")).
  - reflexivity.
  - constructor.
  - vm_compute. reflexivity.
  - vm_compute. reflexivity.
  - repeat constructor.
  - vm_compute. reflexivity.
Defined.

(** * The scheduler *)

Lemma of_nat_S (k : nat) : of_nat (S k) = (1 + of_nat k)%Qc.
Proof.
  apply Qc_is_canon. unfold of_nat. cbn [this Qcplus Q2Qc].
  rewrite !Qred_correct, Nat2Z.inj_succ. unfold Z.succ.
  rewrite inject_Z_plus. ring.
Qed.

Lemma fired_app (ev ev' : list event) : fired (ev ++ ev') = fired ev + fired ev'.
Proof. unfold fired. by rewrite filter_app, length_app. Qed.

Lemma spawned_after_poll_app (ev ev' : list event) :
  spawned_after_poll ev → spawned_after_poll ev' →
  spawned_after_poll (ev ++ ev').
Proof.
  intros H1 H2 i command Hi.
  apply lookup_app_Some in Hi as [Hi|[Hlen Hi]].
  - destruct (H1 i command Hi) as (j & -> & Hj). exists j.
    split; [done|]. by apply lookup_app_l_Some.
  - destruct (H2 _ command Hi) as (j & Hij & Hj).
    exists (length ev + j). split; [lia|].
    rewrite lookup_app_r by lia. by replace (length ev + j - length ev) with j by lia.
Qed.

(** What one round of the loop does, case by case. *)
Lemma round_cases (W : World) (args : Args) (st st' : Proc)
    (ev : list event) (o : outcome) :
  Run.round W args st = (st', ev, o) →
  let now := clock W (clock_reads st) in
  let p := Watcher.poll (order W (polls st)) (files W (polls st)) (watcher st) in
  (* not due yet *)
  (¬ (deadline st ≤ now)%Qc ∧ o = Normal ∧ deadline st' = deadline st ∧
   watcher st' = watcher st ∧ polls st' = polls st ∧
   ∃ dt, ev = [Slept dt]) ∨
  (* due, and the poll raises *)
  ((deadline st ≤ now)%Qc ∧ (∃ e, p.2 = Raised e ∧ o = Raised e) ∧ ev = []) ∨
  (* due, nothing changed *)
  ((deadline st ≤ now)%Qc ∧ p.2 = Normal ∧ Watcher._changed p.1 = false ∧
   o = Normal ∧ watcher st' = p.1 ∧ polls st' = S (polls st) ∧
   deadline st' = (deadline st + polling_rate args)%Qc ∧
   ∃ dt, ev = [Polled false; Slept dt]) ∨
  (* due, something changed, the command returns *)
  ((deadline st ≤ now)%Qc ∧ p.2 = Normal ∧ Watcher._changed p.1 = true ∧
   o = Normal ∧ watcher st' = p.1 ∧ polls st' = S (polls st) ∧
   deadline st' = (deadline st + polling_rate args)%Qc ∧
   ∃ dt, ev = [Polled true; Spawned (cmd args); Slept dt]) ∨
  (* due, something changed, the command cannot be run *)
  ((deadline st ≤ now)%Qc ∧ p.2 = Normal ∧ Watcher._changed p.1 = true ∧
   (∃ e, o = Raised e) ∧ ev = [Polled true; Spawned (cmd args)]).
Proof.
  unfold Run.round, Run.fire, Run.do_poll, Run.monotonic, Run.subprocess_run,
    Run.set_deadline, Watcher.changed.
  cbn [deadline watcher polls clock_reads spawns].
  destruct (decide (deadline st ≤ clock W (clock_reads st))%Qc) as [Hdue|Hdue].
  - destruct (Watcher.poll (order W (polls st)) (files W (polls st))
                (watcher st)) as [w' [|e]]; cbn -[Qcplus Qcminus Run.max0].
    + destruct (Watcher._changed w') eqn:Hch; cbn -[Qcplus Qcminus Run.max0].
      * destruct (spawn W (spawns st)) as [|e] eqn:Hsp;
          cbn -[Qcplus Qcminus Run.max0]; intros [= <- <- <-];
          cbn -[Qcplus Qcminus Run.max0].
        -- do 3 right. left. split_and!; eauto.
        -- do 4 right. split_and!; eauto.
      * intros [= <- <- <-]. cbn -[Qcplus Qcminus Run.max0].
        do 2 right. left. split_and!; eauto.
    + intros [= <- <- <-]. right. left. split_and!; eauto.
  - intros [= <- <- <-]. left. cbn. split_and!; eauto.
Qed.

Lemma round_spawned_after_poll (W : World) (args : Args) (st st' : Proc)
    (ev : list event) (o : outcome) :
  Run.round W args st = (st', ev, o) → spawned_after_poll ev.
Proof.
  intros Hr. apply round_cases in Hr. cbn zeta in Hr.
  assert (Hgo : ∀ l : list event,
    (∀ i c, l !! i = Some (Spawned c) →
            i = 1 ∧ l !! 0 = Some (Polled true)) → spawned_after_poll l).
  { intros l Hl i c Hi. destruct (Hl i c Hi) as [-> ?]. eauto. }
  destruct Hr as [(_ & _ & _ & _ & _ & dt & ->)
    |[(_ & _ & ->)
    |[(_ & _ & _ & _ & _ & _ & _ & dt & ->)
    |[(_ & _ & _ & _ & _ & _ & _ & dt & ->)
    |(_ & _ & _ & _ & ->)]]]];
    apply Hgo; intros [|[|[|i]]] c Hi; cbn in Hi; by simplify_eq.
Qed.

Lemma round_deadline (W : World) (args : Args) (st st' : Proc)
    (ev : list event) :
  Run.round W args st = (st', ev, Normal) →
  deadline st' = (deadline st + of_nat (fired ev) * polling_rate args)%Qc.
Proof.
  intros Hr. apply round_cases in Hr. cbn zeta in Hr.
  assert (H0 : ∀ d r : Qc, d = (d + of_nat 0 * r)%Qc).
  { intros d r. change (of_nat 0) with 0%Qc. ring. }
  assert (H1 : ∀ d r : Qc, (d + r = d + of_nat 1 * r)%Qc).
  { intros d r. change (of_nat 1) with 1%Qc. ring. }
  destruct Hr as [(_ & _ & -> & _ & _ & dt & ->)
    |[(_ & (e & _ & [=]) & _)
    |[(_ & _ & _ & _ & _ & _ & -> & dt & ->)
    |[(_ & _ & _ & _ & _ & _ & -> & dt & ->)
    |(_ & _ & _ & (e & [=]) & _)]]]]; cbn; auto.
Qed.

Lemma loop_spawned_after_poll (W : World) (args : Args) (n : nat)
    (st st' : Proc) (ev : list event) (o : outcome) :
  Run.loop W args n st = (st', ev, o) → spawned_after_poll ev.
Proof.
  revert st st' ev o. induction n as [|n IH]; intros st st' ev o;
    cbn [Run.loop].
  - intros [= _ <- _]. intros i c Hi. by rewrite lookup_nil in Hi.
  - destruct (Run.round W args st) as [[st1 ev1] [|e]] eqn:Hr.
    + destruct (Run.loop W args n st1) as [[st2 ev2] o2] eqn:Hl.
      intros [= _ <- _]. apply spawned_after_poll_app.
      * by eapply round_spawned_after_poll.
      * by eapply IH.
    + intros [= _ <- _]. by eapply round_spawned_after_poll.
Qed.

(** The deadline moves by [args.polling_rate] at every tick that fires:
    additively, and by the rate itself. *)
Lemma loop_deadline (W : World) (args : Args) (n : nat) (st st' : Proc)
    (ev : list event) :
  Run.loop W args n st = (st', ev, Normal) →
  deadline st' = (deadline st + of_nat (fired ev) * polling_rate args)%Qc.
Proof.
  revert st st' ev. induction n as [|n IH]; intros st st' ev; cbn [Run.loop].
  - intros [= <- <-]. change (of_nat (fired [])) with 0%Qc. ring.
  - destruct (Run.round W args st) as [[st1 ev1] [|e]] eqn:Hr; [|done].
    destruct (Run.loop W args n st1) as [[st2 ev2] o2] eqn:Hl.
    intros [= <- <- ->]. rewrite (IH _ _ _ Hl), (round_deadline _ _ _ _ _ Hr).
    rewrite fired_app. generalize (fired ev1) (fired ev2). intros a b.
    induction a as [|a IHa]; cbn [Nat.add].
    + change (of_nat 0) with 0%Qc. ring.
    + rewrite !of_nat_S. ring_simplify. ring_simplify in IHa.
      rewrite <- IHa. ring.
Qed.

Lemma prologue_normal (W : World) (w w0 : Watcher.t) :
  Watcher.poll (order W 0) (files W 0) w = (w0, Normal) →
  Run.prologue W w =
    ({| watcher := w0; deadline := clock W 0; clock_reads := 1; polls := 1;
        spawns := 0 |},
     [Polled (Watcher.changed w0)], Normal).
Proof.
  intros Hp. unfold Run.prologue, Run.do_poll, Run.start.
  cbn [polls watcher]. by rewrite Hp.
Qed.

(** After [k] fired ticks the deadline is the first reading of the clock
    plus [k] times [args.polling_rate]. *)
Lemma run_deadline (W : World) (args : Args) (n : nat) (w : Watcher.t)
    (st : Proc) (ev : list event) :
  Run.run W args n w = (st, ev, Normal) →
  ∃ k, fired ev = S k ∧
    deadline st = (clock W 0 + of_nat k * polling_rate args)%Qc.
Proof.
  unfold Run.run.
  destruct (Watcher.poll (order W 0) (files W 0) w) as [w0 [|e]] eqn:Hp.
  - rewrite (prologue_normal W w w0 Hp).
    destruct (Run.loop W args n _) as [[st1 ev1] o1] eqn:Hl.
    intros [= <- <- ->]. exists (fired ev1). split; [done|].
    by rewrite (loop_deadline _ _ _ _ _ _ Hl).
  - unfold Run.prologue, Run.do_poll, Run.start. cbn [polls watcher].
    by rewrite Hp.
Qed.

(** ** Claims about the scheduler *)

(** C8.  When the first poll of [run] returns, it is the only thing done
    before the loop: the prologue polls once, reads the clock once for
    the deadline and runs no command; the trace of [run] is that poll
    followed by the trace of the loop.  Every command in the trace comes
    right after a poll of the loop that reported a change, never after
    the first poll, whatever that one reported.  The first tick polls the
    state the first poll left: if the file system is still the same, it
    reports no change and runs nothing. *)
Theorem C8_baseline_poll_never_spawns (W : World) (args : Args) (n : nat)
    (w w0 : Watcher.t) :
  Watcher.poll (order W 0) (files W 0) w = (w0, Normal) →
  let st0 :=
    {| watcher := w0; deadline := clock W 0; clock_reads := 1; polls := 1;
       spawns := 0 |} in
  let r := Run.run W args n w in
  Run.prologue W w = (st0, [Polled (Watcher.changed w0)], Normal) ∧
  r = (let '(st, ev, o) := Run.loop W args n st0 in
       (st, Polled (Watcher.changed w0) :: ev, o)) ∧
  (∀ i command, r.1.2 !! i = Some (Spawned command) →
     ∃ j, i = S j ∧ (1 ≤ j)%nat ∧ r.1.2 !! j = Some (Polled true)) ∧
  ((1 ≤ n)%nat → (clock W 0 ≤ clock W 1)%Qc → same_files (files W 0) (files W 1) →
   ∃ dt rest,
     r.1.2 = Polled (Watcher.changed w0) :: Polled false :: Slept dt :: rest).
Proof.
  intros Hp st0 r.
  pose proof (prologue_normal W w w0 Hp) as Hpro. fold st0 in Hpro.
  assert (Hr : r = (let '(st, ev, o) := Run.loop W args n st0 in
                    (st, Polled (Watcher.changed w0) :: ev, o))).
  { unfold r, Run.run. rewrite Hpro.
    by destruct (Run.loop W args n st0) as [[st ev] o]. }
  split_and!; [done..| |].
  - rewrite Hr. destruct (Run.loop W args n st0) as [[st ev] o] eqn:Hl.
    cbn [fst snd]. intros [|i] command Hi; [done|]. cbn in Hi.
    destruct (loop_spawned_after_poll _ _ _ _ _ _ _ Hl i command Hi)
      as (j & -> & Hj).
    exists (S j). split_and!; [done|lia|done].
  - intros Hn Hclock Hsame. rewrite Hr. destruct n as [|n]; [lia|].
    cbn [Run.loop].
    destruct (poll_settled (order W 1) (files W 0) (files W 1) w0 Hsame)
      as (w1 & Hw1 & Hch & _); [by eapply poll_settles|].
    destruct (Run.round W args st0) as [[st1 ev1] o1] eqn:Hround.
    apply round_cases in Hround. cbn zeta in Hround.
    cbn [deadline clock_reads polls watcher st0] in Hround.
    rewrite Hw1 in Hround. cbn [fst snd] in Hround.
    unfold Watcher.changed in Hch. rewrite Hch in Hround.
    destruct Hround as [(Hnot & _)
      |[(_ & (e & [=] & _) & _)
      |[(_ & _ & _ & -> & _ & _ & _ & dt & ->)
      |[(_ & _ & [=] & _)
      |(_ & _ & [=] & _)]]]]; [done|].
    destruct (Run.loop W args n st1) as [[st2 ev2] o2]. cbn. eauto.
Qed.

Lemma C8_baseline_poll_never_spawns_witness :
  let W := world_of [fs_hdmi; fs_hdmi;
                     two_ports (Ok ("connected" +:+ nl))
                       (Ok ("connected" +:+ nl))] in
  let w0 := (Watcher.poll elements_order fs_hdmi watcher0).1 in
  let st0 :=
    {| watcher := w0; deadline := clock W 0; clock_reads := 1; polls := 1;
       spawns := 0 |} in
  let r := Run.run W default_args 3 watcher0 in
  Run.prologue W watcher0 = (st0, [Polled (Watcher.changed w0)], Normal) ∧
  r = (let '(st, ev, o) := Run.loop W default_args 3 st0 in
       (st, Polled (Watcher.changed w0) :: ev, o)) ∧
  (∀ i command, r.1.2 !! i = Some (Spawned command) →
     ∃ j, i = S j ∧ (1 ≤ j)%nat ∧ r.1.2 !! j = Some (Polled true)) ∧
  ((1 ≤ 3)%nat → (clock W 0 ≤ clock W 1)%Qc → same_files (files W 0) (files W 1) →
   ∃ dt rest,
     r.1.2 = Polled (Watcher.changed w0) :: Polled false :: Slept dt :: rest).
Proof.
  apply (C8_baseline_poll_never_spawns
           (world_of [fs_hdmi; fs_hdmi;
                      two_ports (Ok ("connected" +:+ nl))
                        (Ok ("connected" +:+ nl))])
           default_args 3 watcher0
           (Watcher.poll elements_order fs_hdmi watcher0).1).
  vm_compute. reflexivity.
Defined.

(** C1, on the code.  With the default polling rate of 0.2 Hz, one tick
    fires in the first round of the loop; the deadline is then the first
    reading of the clock plus 0.2 s, the rate taken as a number of
    seconds, and not plus the period of 1/0.2 = 5 s. *)
Theorem C1_deadline_moves_by_rate_not_period :
  let W := world_of [fs_hdmi] in
  let r := Run.run W default_args 1 watcher0 in
  r.2 = Normal ∧
  fired r.1.2 = 2 ∧
  polling_rate default_args = Q2Qc (1 # 5) ∧
  deadline r.1.1 = (clock W 0 + of_nat 1 * polling_rate default_args)%Qc ∧
  deadline r.1.1 ≠ (clock W 0 + of_nat 1 * / polling_rate default_args)%Qc ∧
  (clock W 0 + of_nat 1 * / polling_rate default_args)%Qc = of_nat 5.
Proof.
  split_and!.
  - vm_compute. reflexivity.
  - vm_compute. reflexivity.
  - apply Qc_is_canon. vm_compute. reflexivity.
  - apply Qc_is_canon. vm_compute. reflexivity.
  - intros H. apply (f_equal this) in H. vm_compute in H. discriminate H.
  - apply Qc_is_canon. vm_compute. reflexivity.
Qed.

(** * The dictionary of a card keeps its keys unique *)

Lemma dict_set_NoDup {V} (k : string) (v : V) (d : dict V) :
  NoDup (dict_keys d) → NoDup (dict_keys (dict_set k v d)).
Proof.
  unfold dict_keys. induction d as [|[k0 v0] d IH]; cbn [dict_set].
  - intros _. apply NoDup_singleton.
  - cbn [fmap list_fmap fst]. intros [Hk0 Hd]%NoDup_cons.
    case_decide as Hk; [subst; by apply NoDup_cons|].
    cbn [fmap list_fmap fst]. apply NoDup_cons. split; [|auto].
    intros [?|?]%(dict_keys_set d k v k0); [congruence|done].
Qed.

Lemma add_ports_NoDup (path : string) (names : list string)
    (d : dict Port.t) :
  NoDup (dict_keys d) → NoDup (dict_keys (Card.add_ports path names d)).
Proof.
  revert d. induction names as [|name names IH]; intros d Hd; [done|].
  cbn [Card.add_ports]. by apply IH, dict_set_NoDup.
Qed.

Lemma filter_NoDup_keys {V} (P : string * V → Prop) `{∀ x, Decision (P x)}
    (d : dict V) :
  NoDup (dict_keys d) → NoDup (dict_keys (filter P d)).
Proof.
  unfold dict_keys. induction d as [|[k0 v0] d IH]; [done|].
  cbn [fmap list_fmap fst]. intros [Hk0 Hd]%NoDup_cons.
  rewrite filter_cons. case_decide; [|auto].
  cbn [fmap list_fmap fst]. apply NoDup_cons. split; [|auto].
  intros ([k1 v1] & Hk & [_ Hin]%list_elem_of_filter)%list_elem_of_fmap.
  cbn in Hk. subst k1. apply Hk0, list_elem_of_fmap. by exists (k0, v1).
Qed.

Lemma update_ports_keys (fs : FileSys) (d : dict Port.t) (b : bool) :
  dict_keys (Card.update_ports fs d b).1.1 = dict_keys d.
Proof.
  unfold dict_keys. revert b.
  induction d as [|[name port] d IH]; intros b; [done|].
  cbn [Card.update_ports]. destruct (Port.update fs port) as [port' [|e]].
  - specialize (IH (b || Port.changed port')).
    destruct (Card.update_ports fs d (b || Port.changed port'))
      as [[d' b'] o]. cbn in IH |- *. by f_equal.
  - done.
Qed.

Lemma card_update_NoDup (ord : SetIter) (fs : FileSys) (c : Card.t) :
  NoDup (dict_keys (Card._ports c)) →
  NoDup (dict_keys (Card._ports (Card.update ord fs c).1)).
Proof.
  intros Hc. destruct (Card._enum_ports fs c) as [names|e] eqn:Hen.
  - rewrite (card_update_unfold ord fs c names Hen), reconcile_spec.
    cbn [fst Card._ports Card._changed Card._path Card.set_changed].
    match goal with
    | |- context [Card.update_ports fs ?d ?b] =>
        pose proof (update_ports_keys fs d b) as Hk;
        destruct (Card.update_ports fs d b) as [[d' b'] o]
    end.
    cbn [fst snd Card._ports] in Hk |- *. rewrite Hk.
    by apply filter_NoDup_keys, add_ports_NoDup.
  - by rewrite (card_update_enum_raise ord fs c e Hen).
Qed.

(** * Further properties *)

(** ** The two patterns *)

Lemma append_empty_r (s : string) : s +:+ "" = s.
Proof.
  induction s as [|c s IH]; [done|].
  change (String c s +:+ "") with (String c (s +:+ "")). by rewrite IH.
Qed.

Lemma dot_plus_spec (u : string) :
  match_items [(dot, Plus)] false u = true ↔
  ∃ c rest, u = String c rest ∧ c ≠ newline.
Proof.
  destruct u as [|c rest]; cbn.
  - split; [done|]. by intros (? & ? & ? & _).
  - rewrite ?orb_true_l, ?andb_true_r. unfold dot, newline.
    rewrite negb_true_iff. split.
    + intros Hc. exists c, rest. split; [done|]. intros ->.
      by rewrite Ascii.eqb_refl in Hc.
    + intros (c' & rest' & [= <- <-] & Hne). by apply Ascii.eqb_neq.
Qed.

Lemma digit_not_newline (d : ascii) : digit d = true → d ≠ newline.
Proof. intros Hd ->. discriminate Hd. Qed.

Lemma digits_dot_spec (t : string) :
  match_items [(digit, Plus); (dot, Plus)] false t = true ↔
  ∃ d c rest, t = String d (String c rest) ∧ digit d = true ∧ c ≠ newline.
Proof.
  assert (Hstep : ∀ d t',
    match_items [(digit, Plus); (dot, Plus)] false (String d t') =
    digit d && (match_items [(dot, Plus)] false t'
                || match_items [(digit, Plus); (dot, Plus)] false t'))
    by reflexivity.
  split.
  - induction t as [|d t' IH]; [done|].
    rewrite Hstep, andb_true_iff, orb_true_iff.
    intros [Hd [Hdot|Hrec]].
    + apply dot_plus_spec in Hdot as (c & rest & -> & Hc). eauto 6.
    + destruct (IH Hrec) as (d' & c & rest & -> & Hd' & _).
      exists d, d', (String c rest).
      split_and!; [done..|]. by apply digit_not_newline.
  - intros (d & c & rest & -> & Hd & Hc).
    rewrite Hstep, Hd, andb_true_l, orb_true_iff. left.
    apply dot_plus_spec. eauto.
Qed.

Lemma card_prefix_inv (rest : list ((ascii → bool) * quant)) (dollar : bool)
    (s : string) :
  match_items (lit "c" :: lit "a" :: lit "r" :: lit "d" :: rest) dollar s
    = true ↔
  ∃ t, s = "card" +:+ t ∧ match_items rest dollar t = true.
Proof.
  split.
  - destruct s as [|c1 [|c2 [|c3 [|c4 t]]]]; cbn [match_items lit];
      rewrite ?andb_true_iff, ?Ascii.eqb_eq; try discriminate;
      try (intros H; decompose [and] H; discriminate).
    intros (<- & <- & <- & <- & Ht). by exists t.
  - intros (t & -> & Ht). by cbn.
Qed.

(** X1.  [re.match(DRM_PORT_PATTERN, item)] succeeds exactly on the names
    that start with [card], a digit, and one more character that is not
    a newline: a bare [card0] is not a port, and the match does not look
    at what follows. *)
Theorem port_pattern_spec (s : string) :
  re_match DRM_PORT_PATTERN s = true ↔
  ∃ d c rest, s = "card" +:+ String d (String c rest) ∧
    digit d = true ∧ c ≠ newline.
Proof.
  unfold re_match, DRM_PORT_PATTERN, card_prefix.
  cbn [pat_items pat_dollar app].
  rewrite card_prefix_inv. split.
  - intros (t & -> & Ht). apply digits_dot_spec in Ht.
    destruct Ht as (d & c & rest & -> & ? & ?). eauto 6.
  - intros (d & c & rest & -> & ? & ?). eexists. split; [done|].
    apply digits_dot_spec. eauto 6.
Qed.

Lemma digits_dollar_spec (t : string) :
  match_items [(digit, Plus)] true t = true ↔
  ∃ ds, ds ≠ "" ∧ all_digits ds = true ∧
    (t = ds ∨ t = ds +:+ String newline "").
Proof.
  assert (Hstep : ∀ d t',
    match_items [(digit, Plus)] true (String d t') =
    digit d && (at_dollar t' || match_items [(digit, Plus)] true t'))
    by reflexivity.
  split.
  - induction t as [|d t' IH]; [done|].
    rewrite Hstep, andb_true_iff, orb_true_iff.
    intros [Hd [Hend|Hrec]].
    + exists (String d "").
      split_and!; [done|by cbn; rewrite Hd|].
      destruct t' as [|c [|??]]; cbn in Hend; [by left| |done].
      apply Ascii.eqb_eq in Hend as ->. by right.
    + destruct (IH Hrec) as (ds & _ & Hds & Ht').
      exists (String d ds).
      split_and!; [done|by cbn; rewrite Hd|].
      destruct Ht' as [->| ->]; [by left|by right].
  - intros (ds & Hne & Hds & Ht).
    assert (Hgo : ∀ tail, at_dollar tail = true →
      match_items [(digit, Plus)] true (ds +:+ tail) = true).
    { intros tail Htail. clear Ht.
      induction ds as [|d ds IH]; [done|].
      cbn [all_digits] in Hds. apply andb_true_iff in Hds as [Hd Hds].
      change (String d ds +:+ tail) with (String d (ds +:+ tail)).
      rewrite Hstep, Hd, andb_true_l.
      destruct ds as [|d' ds'].
      - change ("" +:+ tail) with tail. by rewrite Htail.
      - rewrite IH by done. apply orb_true_r. }
    destruct Ht as [->| ->].
    + specialize (Hgo "" eq_refl). by rewrite append_empty_r in Hgo.
    + by apply Hgo.
Qed.

(** X2.  [re.match(DRM_CARD_PATTERN, item)] succeeds exactly on [card]
    followed by one or more digits and nothing else, but for one final
    newline, which [$] lets through. *)
Theorem card_pattern_spec (s : string) :
  re_match DRM_CARD_PATTERN s = true ↔
  ∃ ds, ds ≠ "" ∧ all_digits ds = true ∧
    (s = "card" +:+ ds ∨ s = "card" +:+ ds +:+ String newline "").
Proof.
  unfold re_match, DRM_CARD_PATTERN, card_prefix. cbn [pat_items pat_dollar].
  rewrite card_prefix_inv. split.
  - intros (t & -> & Ht). apply digits_dollar_spec in Ht.
    destruct Ht as (ds & ? & ? & [->| ->]); exists ds; split_and!; auto.
  - intros (ds & ? & ? & Hs). exists (slice_from 4 s).
    destruct Hs as [->| ->]; (split; [done|]); apply digits_dollar_spec;
      exists ds; split_and!; auto.
Qed.

(** ** The public properties of a port *)

(** X3.  The two read-only views of a port agree: [connected] is true
    exactly when [status] is the text [connected]. *)
Theorem connected_iff_status (p : Port.t) :
  Port.connected p = true ↔ Port.status p = "connected".
Proof.
  unfold Port.connected, Port.status. rewrite bool_decide_eq_true.
  destruct (Port._status p) as [s|]; [|split; discriminate].
  destruct (String.eqb_spec s "") as [->|Hs].
  - split; [intros [= ?]|]; discriminate.
  - split; [by intros [= ->]|by intros ->].
Qed.

Lemma lstrip_first (s : string) (c : ascii) :
  first_char (lstrip s) = Some c → isspace c = false.
Proof.
  induction s as [|a s IH]; cbn [lstrip]; [done|].
  destruct (isspace a) eqn:Ha; [done|]. cbn. by intros [= <-].
Qed.

Lemma rstrip_first (s : string) (c : ascii) :
  first_char (rstrip s) = Some c → first_char s = Some c.
Proof.
  destruct s as [|a s]; cbn [rstrip]; [done|].
  destruct (rstrip s); [|done]. by destruct (isspace a).
Qed.

Lemma rstrip_last (s : string) (c : ascii) :
  last_char (rstrip s) = Some c → isspace c = false.
Proof.
  induction s as [|a s IH]; cbn [rstrip]; [done|].
  destruct (rstrip s) as [|b r].
  - destruct (isspace a) eqn:Ha; [done|]. cbn. by intros [= <-].
  - done.
Qed.

Example strip_latin1_examples :
  strip <$>
    [String (ascii_of_nat 160) ("connected" +:+ String (ascii_of_nat 133) nl);
     String (ascii_of_nat 160) nl;
     "a" +:+ String (ascii_of_nat 160) "b"]
  = ["connected"; ""; "a" +:+ String (ascii_of_nat 160) "b"].
Proof. reflexivity. Qed.

(** X4.  The status a successful update stores never begins or ends with
    a whitespace character ([str.isspace], over the code points below
    256 that a [string] holds, NEL and the no-break space included); in
    particular it never carries the newline that ends the line read. *)
Theorem stored_status_is_stripped (fs : FileSys) (p p' : Port.t) :
  Port.update fs p = (p', Normal) →
  ∃ st, Port._status p' = Some st ∧
    (∀ c, first_char st = Some c → isspace c = false) ∧
    (∀ c, last_char st = Some c → isspace c = false) ∧
    last_char st ≠ Some newline.
Proof.
  intros (line & _ & _ & Hst & _)%port_update_normal_inv.
  exists (strip line). split; [done|]. unfold strip.
  assert (Hlast : ∀ c, last_char (rstrip (lstrip line)) = Some c →
                       isspace c = false) by (intros c; apply rstrip_last).
  split_and!; [|done|].
  - intros c Hc%rstrip_first. by eapply lstrip_first.
  - intros Hnl%Hlast. discriminate Hnl.
Qed.

Lemma stored_status_is_stripped_witness :
  ∃ st, Port._status
          ((Port.update (one_port (Ok ("  connected " +:+ nl)))
              (Port.init dp1)).1) = Some st ∧
    (∀ c, first_char st = Some c → isspace c = false) ∧
    (∀ c, last_char st = Some c → isspace c = false) ∧
    last_char st ≠ Some newline.
Proof.
  apply (stored_status_is_stripped (one_port (Ok ("  connected " +:+ nl)))
           (Port.init dp1)).
  reflexivity.
Defined.

(** ** Paths and names *)

Lemma pattern_no_slash (pat : pattern) (s : string) :
  (∃ rest, pat_items pat = lit "c" :: rest) →
  re_match pat s = true → startswith_slash s = false.
Proof.
  intros [rest Hpat]. unfold re_match. rewrite Hpat.
  destruct s as [|c s]; [done|]. cbn [match_items lit startswith_slash].
  intros [Hc _]%andb_true_iff. by apply Ascii.eqb_eq in Hc as <-.
Qed.

Lemma card_name_no_slash (s : string) :
  re_match DRM_CARD_PATTERN s = true → startswith_slash s = false.
Proof. apply pattern_no_slash. by eexists. Qed.

Lemma port_name_no_slash (s : string) :
  re_match DRM_PORT_PATTERN s = true → startswith_slash s = false.
Proof. apply pattern_no_slash. by eexists. Qed.

Lemma slice_from_append (a b : string) :
  slice_from (String.length a) (a +:+ b) = b.
Proof.
  induction a as [|c a IH]; [by destruct b|].
  change (String c a +:+ b) with (String c (a +:+ b)). exact IH.
Qed.

Lemma card_str_join (item : string) :
  startswith_slash item = false →
  slice_from (String.length DRM_PATH + 1) (os_path_join DRM_PATH item) = item.
Proof.
  intros Hitem. unfold os_path_join. rewrite Hitem.
  change (String.eqb DRM_PATH "" || endswith_slash DRM_PATH) with false.
  cbn iota. exact (slice_from_append (DRM_PATH +:+ "/") item).
Qed.

Lemma endswith_slash_last (s : string) :
  endswith_slash s = true ↔ last_char s = Some "/"%char.
Proof.
  induction s as [|c s IH]; [done|]. cbn [endswith_slash last_char].
  destruct s as [|c' s']; [|exact IH].
  rewrite Ascii.eqb_eq. split; [by intros ->|by intros [= ->]].
Qed.

Lemma last_char_append (a b : string) :
  b ≠ "" → last_char (a +:+ b) = last_char b.
Proof.
  intros Hb. induction a as [|c a IH]; [done|].
  change (String c a +:+ b) with (String c (a +:+ b)).
  cbn [last_char]. destruct (a +:+ b) as [|c' r] eqn:Hab; [|exact IH].
  destruct a; [by destruct b|done].
Qed.

Lemma all_digits_last (ds : string) :
  ds ≠ "" → all_digits ds = true →
  ∃ c, last_char ds = Some c ∧ digit c = true.
Proof.
  induction ds as [|d ds IH]; [done|]. intros _.
  cbn [all_digits]. intros [Hd Hds]%andb_true_iff.
  destruct ds as [|d' ds']; [by exists d|].
  cbn [last_char]. by apply IH.
Qed.

Lemma card_name_last (item : string) :
  re_match DRM_CARD_PATTERN item = true →
  item ≠ "" ∧ last_char item ≠ Some "/"%char.
Proof.
  intros (ds & Hne & Hds & Hitem)%card_pattern_spec.
  split; [by destruct Hitem as [->| ->]|].
  destruct (all_digits_last ds Hne Hds) as (c & Hc & Hd).
  destruct Hitem as [->| ->].
  - rewrite last_char_append, Hc by done. intros [= ->]. discriminate Hd.
  - change ("card" +:+ ds +:+ String newline "")
      with ("card" +:+ (ds +:+ String newline "")).
    rewrite !last_char_append by (done || by destruct ds). done.
Qed.

Lemma card_path_join (item : string) :
  re_match DRM_CARD_PATTERN item = true →
  os_path_join DRM_PATH item = DRM_PATH +:+ "/" +:+ item ∧
  endswith_slash (os_path_join DRM_PATH item) = false.
Proof.
  intros Hitem.
  assert (Hjoin : os_path_join DRM_PATH item = DRM_PATH +:+ "/" +:+ item).
  { unfold os_path_join. by rewrite (card_name_no_slash item Hitem). }
  split; [done|]. rewrite Hjoin.
  destruct (card_name_last item Hitem) as [Hne Hlast].
  apply not_true_is_false. intros Hend%endswith_slash_last.
  change (DRM_PATH +:+ "/" +:+ item) with ((DRM_PATH +:+ "/") +:+ item)
    in Hend.
  by rewrite last_char_append in Hend.
Qed.

(** X5.  [enum_cards] returns one card for each entry of [DRM_PATH] that
    matches the card pattern, in the order of the listing; each card has
    no port yet and its flag is false, and [str(card)] gives back the
    entry's name. *)
Theorem enum_cards_names (fs : FileSys) (items : list string) :
  listdir fs DRM_PATH = Ok items →
  ∃ cards, enum_cards fs = Ok cards ∧
    Card.__str__ <$> cards =
      filter (λ item, re_match DRM_CARD_PATTERN item = true) items ∧
    Forall (λ c, Card._ports c = [] ∧ Card.changed c = false) cards.
Proof.
  intros Hls. unfold enum_cards. rewrite Hls. eexists. split; [done|]. split.
  - rewrite <- !list_fmap_compose.
    rewrite <- (list_fmap_id (filter _ items)) at 2.
    apply list_fmap_ext. intros i item Hi.
    apply list_elem_of_lookup_2, list_elem_of_filter in Hi as [Hm _].
    unfold compose, Card.__str__, Card.path, Card.init. cbn [Card._path].
    by apply card_str_join, card_name_no_slash.
  - apply Forall_fmap, Forall_fmap, Forall_forall. by intros.
Qed.

Lemma enum_cards_names_witness :
  ∃ cards, enum_cards fs_hdmi = Ok cards ∧
    Card.__str__ <$> cards =
      filter (λ item, re_match DRM_CARD_PATTERN item = true)
        ["version"; "card0"] ∧
    Forall (λ c, Card._ports c = [] ∧ Card.changed c = false) cards.
Proof. apply (enum_cards_names fs_hdmi ["version"; "card0"]). reflexivity. Defined.

Lemma dict_set_Forall {V} (Q : string * V → Prop) (k : string) (v : V)
    (d : dict V) :
  Forall Q d → Q (k, v) → Forall Q (dict_set k v d).
Proof.
  intros Hd Hkv. induction Hd as [|[k0 v0] d H0 Hd IH]; cbn [dict_set].
  - by constructor.
  - case_decide; by constructor.
Qed.

Lemma add_ports_Forall (Q : string * Port.t → Prop) (path : string)
    (names : list string) (d : dict Port.t) :
  Forall Q d →
  (∀ name, name ∈ names → Q (name, Port.init (os_path_join path name))) →
  Forall Q (Card.add_ports path names d).
Proof.
  revert d. induction names as [|name names IH]; intros d Hd Hnew; [done|].
  cbn [Card.add_ports]. apply IH.
  - apply dict_set_Forall; [done|]. apply Hnew, elem_of_cons. by left.
  - intros n Hn. apply Hnew, elem_of_cons. by right.
Qed.

Lemma update_ports_Forall (R : string → string → Prop) (fs : FileSys)
    (d : dict Port.t) (b : bool) :
  Forall (λ kv, R kv.1 (Port._path kv.2)) d →
  Forall (λ kv, R kv.1 (Port._path kv.2)) (Card.update_ports fs d b).1.1.
Proof.
  intros Hd. revert b.
  induction Hd as [|[name port] d Hp Hd IH]; intros b; [by constructor|].
  cbn [Card.update_ports]. pose proof (port_update_path fs port) as Hpath.
  destruct (Port.update fs port) as [port' [|e]]; cbn [fst snd] in *.
  - specialize (IH (b || Port.changed port')).
    destruct (Card.update_ports fs d (b || Port.changed port'))
      as [[d' b'] o]. cbn [fst snd] in *.
    constructor; [|done]. cbn [fst snd]. by rewrite Hpath.
  - constructor; [|done]. cbn [fst snd]. by rewrite Hpath.
Qed.

Lemma card_update_path (ord : SetIter) (fs : FileSys) (c : Card.t) :
  Card._path (Card.update ord fs c).1 = Card._path c.
Proof.
  destruct (Card._enum_ports fs c) as [names|e] eqn:Hen.
  - rewrite (card_update_unfold ord fs c names Hen). cbn zeta.
    by destruct (Card.update_ports _ _ _) as [[??]?].
  - by rewrite (card_update_enum_raise ord fs c e Hen).
Qed.

Lemma enum_ports_match (fs : FileSys) (c : Card.t) (names : list string)
    (name : string) :
  Card._enum_ports fs c = Ok names → name ∈ names →
  re_match DRM_PORT_PATTERN name = true.
Proof.
  unfold Card._enum_ports. destruct (listdir fs (Card._path c)); [|done].
  intros [= <-] Hin. by apply list_elem_of_filter in Hin as [? _].
Qed.

Lemma card_update_ok (ord : SetIter) (fs : FileSys) (c : Card.t) :
  card_ok c → card_ok (Card.update ord fs c).1.
Proof.
  intros [Hname Hports]. split; [by rewrite card_update_path|].
  rewrite card_update_path.
  destruct (Card._enum_ports fs c) as [names|e] eqn:Hen;
    [|by rewrite (card_update_enum_raise ord fs c e Hen)].
  rewrite (card_update_unfold ord fs c names Hen), reconcile_spec.
  cbn [fst Card._ports Card._changed Card._path Card.set_changed].
  match goal with
  | |- context [Card.update_ports fs ?d ?b] =>
      pose proof (update_ports_Forall
        (λ k path, re_match DRM_PORT_PATTERN k = true ∧
                   path = os_path_join (Card._path c) k) fs d b) as Hup;
      destruct (Card.update_ports fs d b) as [[d' b'] o]
  end.
  cbn [fst snd Card._ports] in Hup |- *. apply Hup.
  apply Forall_forall. intros kv [_ Hin]%list_elem_of_filter. revert kv Hin.
  apply Forall_forall, add_ports_Forall; [done|].
  intros name Hin%iter_elem_of. cbn [fst snd Port.init Port._path].
  split; [|done]. apply elem_of_difference in Hin as [Hin _].
  apply elem_of_list_to_set in Hin. by eapply enum_ports_match.
Qed.

Lemma poll_cards_ok (ord : SetIter) (fs : FileSys) (cards : list Card.t)
    (b : bool) :
  Forall card_ok cards →
  Forall card_ok (Watcher.poll_cards ord fs cards b).1.1.
Proof.
  intros Hall. revert b.
  induction Hall as [|card cards Hc Hcards IH]; intros b; [by constructor|].
  cbn [Watcher.poll_cards].
  pose proof (card_update_ok ord fs card Hc) as Hc'.
  destruct (Card.update ord fs card) as [c' [|e]]; cbn [fst] in Hc'.
  - specialize (IH (b || Card.changed c')).
    destruct (Watcher.poll_cards ord fs cards (b || Card.changed c'))
      as [[r b'] o]. by constructor.
  - by constructor.
Qed.

(** X6.  The cards [Watcher.__init__] makes are well formed, and every
    poll, also one that raises, keeps them so: a card stands for a
    matching entry of [DRM_PATH], and each of its ports is kept under a
    name matching the port pattern, with the path of that name inside the
    card's directory. *)
Theorem card_ok_invariant :
  (∀ fs w, Watcher.init fs = Ok w → Forall card_ok (Watcher._cards w)) ∧
  (∀ ord fs w, Forall card_ok (Watcher._cards w) →
     Forall card_ok (Watcher._cards (Watcher.poll ord fs w).1)).
Proof.
  split.
  - intros fs w. unfold Watcher.init, enum_cards.
    destruct (listdir fs DRM_PATH) as [items|e]; [|done].
    intros [= <-]. cbn [Watcher._cards].
    apply Forall_fmap, Forall_fmap, Forall_forall.
    intros item [Hm _]%list_elem_of_filter. split; [|by constructor].
    by exists item.
  - intros ord fs w Hw. unfold Watcher.poll.
    pose proof (poll_cards_ok ord fs (Watcher._cards w) false Hw) as Hok.
    by destruct (Watcher.poll_cards ord fs (Watcher._cards w) false)
      as [[cards' b'] o].
Qed.

(** X7.  For a well-formed card, [str(card)] is the name of its entry in
    [DRM_PATH], and [str(port)] of each of its ports is that name, a
    slash, and the name the port is kept under. *)
Theorem port_str_is_card_slash_name (c : Card.t) (name : string)
    (p : Port.t) :
  card_ok c → (name, p) ∈ Card._ports c →
  ∃ item, re_match DRM_CARD_PATTERN item = true ∧
    Card.__str__ c = item ∧
    Port.__str__ p = item +:+ "/" +:+ name.
Proof.
  intros [(item & Hitem & Hpath) Hports] Hin.
  rewrite Forall_forall in Hports. destruct (Hports _ Hin) as [Hname Hp].
  cbn [fst snd] in Hname, Hp. exists item. split; [done|].
  destruct (card_path_join item Hitem) as [Hjoin Hend].
  unfold Card.__str__, Port.__str__, Card.path. rewrite Hp, Hpath. split.
  - by apply card_str_join, card_name_no_slash.
  - unfold os_path_join at 1.
    rewrite (port_name_no_slash name Hname), Hend, Hjoin, orb_false_r.
    change (String.eqb (DRM_PATH +:+ "/" +:+ item) "") with false.
    cbn iota.
    exact (slice_from_append (DRM_PATH +:+ "/") (item +:+ "/" +:+ name)).
Qed.

Lemma port_str_is_card_slash_name_witness :
  ∃ item, re_match DRM_CARD_PATTERN item = true ∧
    Card.__str__ card0_before = item ∧
    Port.__str__ (Port.mk dp1 (Some "connected") (Some "disconnected") true)
      = item +:+ "/" +:+ "card0-DP-1".
Proof.
  apply (port_str_is_card_slash_name card0_before "card0-DP-1").
  - split; [by exists "card0"|]. by repeat constructor.
  - apply list_elem_of_here.
Defined.

(** ** What an update leaves and what it can raise *)

(** X8.  When [Card.update] returns, the names the card knows are exactly
    the names [_enum_ports] returned, and every port of the card holds
    the stripped first line just read from its status attribute. *)
Theorem card_update_postcondition (ord : SetIter) (fs : FileSys)
    (c c' : Card.t) :
  Card.update ord fs c = (c', Normal) →
  ∃ names, Card._enum_ports fs c = Ok names ∧
    (∀ name, name ∈ dict_keys (Card._ports c') ↔ name ∈ names) ∧
    Forall (λ kv, ∃ line,
              readline fs (os_path_join (Port._path kv.2) "status") = Ok line ∧
              Port._status kv.2 = Some (strip line))
      (Card._ports c').
Proof.
  intros Hup.
  destruct (card_update_settles ord fs c c' Hup)
    as [(names & Hen & Hkeys) Hports].
  exists names. split_and!; [|intros name|done].
  - pose proof (card_update_path ord fs c) as Hpath. rewrite Hup in Hpath.
    unfold Card._enum_ports in *. cbn [fst] in Hpath. by rewrite <- Hpath.
  - by rewrite <- (elem_of_list_to_set (C := gset string)), Hkeys,
      elem_of_list_to_set.
Qed.

Lemma card_update_postcondition_witness :
  ∃ names, Card._enum_ports fs_hdmi card0_before = Ok names ∧
    (∀ name,
       name ∈ dict_keys
                (Card._ports (Card.update elements_order fs_hdmi card0_before).1)
       ↔ name ∈ names) ∧
    Forall (λ kv, ∃ line,
              readline fs_hdmi (os_path_join (Port._path kv.2) "status")
                = Ok line ∧
              Port._status kv.2 = Some (strip line))
      (Card._ports (Card.update elements_order fs_hdmi card0_before).1).
Proof.
  apply (card_update_postcondition elements_order fs_hdmi card0_before).
  vm_compute. reflexivity.
Defined.

Lemma update_ports_raise_origin (fs : FileSys) (d : dict Port.t) (b : bool)
    (e : exn) :
  (Card.update_ports fs d b).2 = Raised e →
  ∃ kv, kv ∈ d ∧
    readline fs (os_path_join (Port._path kv.2) "status") = Raise e.
Proof.
  revert b. induction d as [|[name port] d IH]; intros b; [done|].
  cbn [Card.update_ports].
  destruct (Port.update fs port) as [port' [|e']] eqn:Hp.
  - specialize (IH (b || Port.changed port')).
    destruct (Card.update_ports fs d (b || Port.changed port'))
      as [[d' b'] o]. cbn [snd] in *. intros Ho.
    destruct (IH Ho) as (kv & Hin & Hrd). exists kv.
    split; [|done]. apply elem_of_cons. by right.
  - cbn [snd]. intros [= ->]. exists (name, port).
    split; [apply list_elem_of_here|]. cbn [snd].
    unfold Port.update, Port.set_changed in Hp. cbn [Port._path] in Hp.
    destruct (readline fs (os_path_join (Port._path port) "status"));
      by simplify_eq.
Qed.

Lemma card_update_raise_origin (ord : SetIter) (fs : FileSys) (c : Card.t)
    (e : exn) :
  (Card.update ord fs c).2 = Raised e →
  listdir fs (Card._path c) = Raise e ∨
  ∃ path, readline fs path = Raise e.
Proof.
  destruct (Card._enum_ports fs c) as [names|e'] eqn:Hen.
  - rewrite (card_update_unfold ord fs c names Hen). cbn zeta.
    match goal with
    | |- context [Card.update_ports fs ?d ?b] =>
        pose proof (update_ports_raise_origin fs d b e) as Horigin;
        destruct (Card.update_ports fs d b) as [[d' b'] o]
    end.
    cbn [snd] in *. intros Ho. destruct (Horigin Ho) as (kv & _ & Hrd).
    right. eauto.
  - rewrite (card_update_enum_raise ord fs c e' Hen). cbn [snd].
    intros [= ->]. left. unfold Card._enum_ports in Hen.
    by destruct (listdir fs (Card._path c)).
Qed.

(** X9.  A poll raises nothing of its own: an exception that leaves
    [Watcher.poll] is one that listing a directory or reading a status
    attribute raised.  In particular the [del] of the reconciliation
    never fails with a [KeyError]. *)
Theorem poll_raises_only_what_files_raise (ord : SetIter) (fs : FileSys)
    (w : Watcher.t) (e : exn) :
  (Watcher.poll ord fs w).2 = Raised e →
  ∃ path, listdir fs path = Raise e ∨ readline fs path = Raise e.
Proof.
  unfold Watcher.poll.
  generalize false. induction (Watcher._cards w) as [|card cards IH];
    intros b; cbn [Watcher.poll_cards]; [done|].
  destruct (Card.update ord fs card) as [c' [|e']] eqn:Hc.
  - specialize (IH (b || Card.changed c')).
    destruct (Watcher.poll_cards ord fs cards (b || Card.changed c'))
      as [[r b'] o]. exact IH.
  - cbn [snd]. intros [= ->].
    destruct (card_update_raise_origin ord fs card e) as [?|[path ?]];
      [by rewrite Hc|eauto..].
Qed.

Lemma poll_raises_only_what_files_raise_witness :
  ∃ path,
    listdir fs_dp_unreadable path = Raise (OSError (os_path_join dp1 "status")) ∨
    readline fs_dp_unreadable path = Raise (OSError (os_path_join dp1 "status")).
Proof.
  apply (poll_raises_only_what_files_raise elements_order fs_dp_unreadable
           {| Watcher._cards := [card0_before]; Watcher._changed := false |}).
  vm_compute. reflexivity.
Defined.

(** ** The order of the ports of a card *)

Lemma dict_set_fresh {V} (k : string) (v : V) (d : dict V) :
  k ∉ dict_keys d → dict_set k v d = d ++ [(k, v)].
Proof.
  unfold dict_keys. induction d as [|[k0 v0] d IH]; [done|].
  cbn [fmap list_fmap fst dict_set]. intros [Hne Hd]%not_elem_of_cons.
  rewrite decide_False by done. cbn [app]. f_equal. by apply IH.
Qed.

Lemma add_ports_append (path : string) (names : list string)
    (d : dict Port.t) :
  NoDup names → (∀ name, name ∈ names → name ∉ dict_keys d) →
  Card.add_ports path names d =
    d ++ ((λ name, (name, Port.init (os_path_join path name))) <$> names).
Proof.
  intros Hnd. revert d.
  induction Hnd as [|name names Hnin Hnd IH]; intros d Hfresh.
  - by rewrite app_nil_r.
  - cbn [Card.add_ports fmap list_fmap].
    rewrite dict_set_fresh by (apply Hfresh, elem_of_cons; by left).
    rewrite IH.
    + by rewrite <- app_assoc.
    + intros n Hn. unfold dict_keys. rewrite fmap_app, elem_of_app.
      intros [Hd|Hd].
      * revert Hd. apply Hfresh, elem_of_cons. by right.
      * cbn in Hd. apply list_elem_of_singleton in Hd. by subst.
Qed.

Lemma filter_ext_elem {A} (P Q : A → Prop) `{∀ x, Decision (P x)}
    `{∀ x, Decision (Q x)} (l : list A) :
  (∀ x, x ∈ l → P x ↔ Q x) → filter P l = filter Q l.
Proof.
  induction l as [|a l IH]; intros Hext; [done|].
  rewrite !filter_cons.
  assert (Ha : P a ↔ Q a) by (apply Hext, elem_of_cons; by left).
  assert (Hl : filter P l = filter Q l).
  { apply IH. intros x Hx. apply Hext, elem_of_cons. by right. }
  destruct (decide (P a)), (decide (Q a)); rewrite ?Hl; tauto || done.
Qed.

Lemma dict_keys_filter_list {V} (P : string * V → Prop)
    `{∀ x, Decision (P x)} (Q : string → Prop) `{∀ k, Decision (Q k)}
    (d : dict V) :
  (∀ kv, P kv ↔ Q kv.1) →
  dict_keys (filter P d) = filter Q (dict_keys d).
Proof.
  intros HPQ. unfold dict_keys. induction d as [|[k v] d IH]; [done|].
  cbn [fmap list_fmap fst]. rewrite !filter_cons.
  pose proof (HPQ (k, v)) as Hkv. cbn [fst] in Hkv.
  destruct (decide (P (k, v))), (decide (Q k));
    cbn [fmap list_fmap fst]; rewrite ?IH; tauto || done.
Qed.

(** X10.  Whenever the enumeration succeeds, [Card.update] leaves the
    ports in this order, also when a read raises later on: first the
    known ports that are still enumerated, in the order they had, then
    the new ones, in the order the set of added names was iterated. *)
Theorem card_update_port_order (ord : SetIter) (fs : FileSys) (c : Card.t)
    (names : list string) :
  Card._enum_ports fs c = Ok names →
  let new : gset string := list_to_set names in
  let old : gset string := list_to_set (dict_keys (Card._ports c)) in
  dict_keys (Card._ports (Card.update ord fs c).1) =
    filter (λ name, name ∈ new) (dict_keys (Card._ports c))
    ++ ord (new ∖ old).
Proof.
  intros Hen new old.
  rewrite (card_update_unfold ord fs c names Hen), reconcile_spec.
  cbn [fst Card._ports Card._changed Card._path Card.set_changed].
  fold new old.
  match goal with
  | |- context [Card.update_ports fs ?d ?b] =>
      pose proof (update_ports_keys fs d b) as Hk;
      destruct (Card.update_ports fs d b) as [[d' b'] o]
  end.
  cbn [fst snd Card._ports] in Hk |- *. rewrite Hk. clear Hk.
  assert (Hold : ∀ x, x ∈ dict_keys (Card._ports c) ↔ x ∈ old).
  { intros x. unfold old. by rewrite elem_of_list_to_set. }
  rewrite add_ports_append.
  - rewrite filter_app.
    assert (Happ : ∀ a b : dict Port.t,
      dict_keys (a ++ b) = dict_keys a ++ dict_keys b)
      by (intros; apply fmap_app).
    rewrite Happ. f_equal.
    + rewrite (dict_keys_filter_list _ (λ k, k ∉ ord (old ∖ new))) by done.
      apply filter_ext_elem. intros x Hx.
      apply Hold in Hx. rewrite iter_elem_of, elem_of_difference.
      clearbody new old. destruct (decide (x ∈ new)); tauto.
    + rewrite filter_id.
      * unfold dict_keys. rewrite <- list_fmap_compose. apply list_fmap_id.
      * intros [k v] (n & [= -> ->] & Hn)%list_elem_of_fmap. cbn [fst].
        rewrite !iter_elem_of in *. rewrite !elem_of_difference in *. tauto.
  - apply iter_NoDup.
  - intros name Hn%iter_elem_of. rewrite Hold.
    by apply elem_of_difference in Hn as [_ ?].
Qed.

Lemma card_update_port_order_witness :
  let names := ["card0-DP-1"; "card0-HDMI-A-1"] in
  let new : gset string := list_to_set names in
  let old : gset string := list_to_set (dict_keys (Card._ports card0_before)) in
  dict_keys (Card._ports (Card.update elements_order fs_hdmi card0_before).1) =
    filter (λ name, name ∈ new) (dict_keys (Card._ports card0_before))
    ++ elements_order (new ∖ old).
Proof.
  apply (card_update_port_order elements_order fs_hdmi card0_before
           ["card0-DP-1"; "card0-HDMI-A-1"]).
  vm_compute. reflexivity.
Defined.

(** ** The poll as a whole *)

(** X11.  The cards of the watcher are fixed: every poll, also one that
    raises, leaves as many cards, in the same order, with the same
    paths. *)
Theorem poll_keeps_the_cards (ord : SetIter) (fs : FileSys) (w : Watcher.t) :
  Card._path <$> Watcher._cards (Watcher.poll ord fs w).1 =
  Card._path <$> Watcher._cards w.
Proof.
  unfold Watcher.poll. generalize false.
  induction (Watcher._cards w) as [|card cards IH]; intros b; [done|].
  cbn [Watcher.poll_cards].
  pose proof (card_update_path ord fs card) as Hpath.
  destruct (Card.update ord fs card) as [c' [|e]]; cbn [fst] in Hpath.
  - specialize (IH (b || Card.changed c')).
    destruct (Watcher.poll_cards ord fs cards (b || Card.changed c'))
      as [[r b'] o]. cbn in IH |- *. by rewrite Hpath, IH.
  - cbn. by rewrite Hpath.
Qed.

Lemma poll_cards_flag (ord : SetIter) (fs : FileSys)
    (cards cards' : list Card.t) (b b' : bool) :
  Watcher.poll_cards ord fs cards b = (cards', b', Normal) →
  b' = b || existsb Card.changed cards'.
Proof.
  revert cards' b b'. induction cards as [|card cards IH]; intros cards' b b';
    cbn [Watcher.poll_cards].
  - intros [= <- <-]. by rewrite orb_false_r.
  - destruct (Card.update ord fs card) as [c' [|e]]; [|done].
    destruct (Watcher.poll_cards ord fs cards (b || Card.changed c'))
      as [[r b''] o] eqn:Hrest.
    intros [= <- <- ->]. rewrite (IH _ _ _ Hrest). cbn [existsb].
    by rewrite orb_assoc.
Qed.

(** X12.  When a poll returns, the watcher's flag is the disjunction of
    the flags of its cards: it is true exactly when some card's flag is
    true. *)
Theorem watcher_changed_iff_some_card (ord : SetIter) (fs : FileSys)
    (w w' : Watcher.t) :
  Watcher.poll ord fs w = (w', Normal) →
  Watcher.changed w' = true ↔
  ∃ c, c ∈ Watcher._cards w' ∧ Card.changed c = true.
Proof.
  unfold Watcher.poll.
  destruct (Watcher.poll_cards ord fs (Watcher._cards w) false)
    as [[cards' b'] o] eqn:Hp.
  intros [= <- ->]. unfold Watcher.changed. cbn [Watcher._changed Watcher._cards].
  rewrite (poll_cards_flag _ _ _ _ _ _ Hp), orb_false_l, existsb_exists.
  split; intros (c & Hin & Hc); exists c; by rewrite list_elem_of_In in *.
Qed.

Lemma watcher_changed_iff_some_card_witness :
  Watcher.changed (Watcher.poll elements_order fs_hdmi watcher0).1 = true ↔
  ∃ c, c ∈ Watcher._cards (Watcher.poll elements_order fs_hdmi watcher0).1 ∧
    Card.changed c = true.
Proof.
  apply (watcher_changed_iff_some_card elements_order fs_hdmi watcher0).
  vm_compute. reflexivity.
Defined.

(** X13.  When a poll raises, it stops at one card: the cards before it
    were updated and their updates returned, the card itself is left as
    its interrupted update left it, the cards after it are untouched, and
    the watcher's flag accounts for the cards before only. *)
Theorem poll_raise_stops_at_a_card (ord : SetIter) (fs : FileSys)
    (w w' : Watcher.t) (e : exn) :
  Watcher.poll ord fs w = (w', Raised e) →
  ∃ pre pre' c c' rest,
    Watcher._cards w = pre ++ c :: rest ∧
    Watcher._cards w' = pre' ++ c' :: rest ∧
    Forall2 (λ a a', Card.update ord fs a = (a', Normal)) pre pre' ∧
    Card.update ord fs c = (c', Raised e) ∧
    Watcher.changed w' = existsb Card.changed pre'.
Proof.
  unfold Watcher.poll.
  destruct (Watcher.poll_cards ord fs (Watcher._cards w) false)
    as [[cards' b'] o] eqn:Hp.
  intros [= <- ->]. unfold Watcher.changed.
  cbn [Watcher._changed Watcher._cards].
  assert (Hgo : ∀ cards b cards' b',
    Watcher.poll_cards ord fs cards b = (cards', b', Raised e) →
    ∃ pre pre' c c' rest, cards = pre ++ c :: rest ∧
      cards' = pre' ++ c' :: rest ∧
      Forall2 (λ a a', Card.update ord fs a = (a', Normal)) pre pre' ∧
      Card.update ord fs c = (c', Raised e) ∧
      b' = b || existsb Card.changed pre').
  { clear. induction cards as [|card cards IH]; intros b cards' b';
      cbn [Watcher.poll_cards]; [done|].
    destruct (Card.update ord fs card) as [c1 [|e1]] eqn:Hc.
    - destruct (Watcher.poll_cards ord fs cards (b || Card.changed c1))
        as [[r b''] o] eqn:Hrest.
      intros [= <- <- ->].
      destruct (IH _ _ _ Hrest)
        as (pre & pre' & c & c' & rest & -> & -> & Hpre & Hcc & ->).
      exists (card :: pre), (c1 :: pre'), c, c', rest.
      split_and!; [done..|by constructor|done|].
      cbn [existsb]. by rewrite orb_assoc.
    - intros [= <- <- ->]. exists [], [], card, c1, cards.
      split_and!; [done..|constructor|done|]. by rewrite orb_false_r. }
  destruct (Hgo _ _ _ _ Hp)
    as (pre & pre' & c & c' & rest & ? & ? & ? & ? & ->).
  exists pre, pre', c, c', rest. by split_and!.
Qed.

Lemma poll_raise_stops_at_a_card_witness :
  let w := {| Watcher._cards := [card0_before]; Watcher._changed := false |} in
  ∃ pre pre' c c' rest,
    Watcher._cards w = pre ++ c :: rest ∧
    Watcher._cards (Watcher.poll elements_order fs_dp_unreadable w).1
      = pre' ++ c' :: rest ∧
    Forall2 (λ a a', Card.update elements_order fs_dp_unreadable a
                     = (a', Normal)) pre pre' ∧
    Card.update elements_order fs_dp_unreadable c
      = (c', Raised (OSError (os_path_join dp1 "status"))) ∧
    Watcher.changed (Watcher.poll elements_order fs_dp_unreadable w).1
      = existsb Card.changed pre'.
Proof.
  apply (poll_raise_stops_at_a_card elements_order fs_dp_unreadable
           {| Watcher._cards := [card0_before]; Watcher._changed := false |}).
  vm_compute. reflexivity.
Defined.

(** ** The scheduler's trace *)

Lemma max0_nonneg (x : Qc) : (0 ≤ Run.max0 x)%Qc.
Proof.
  unfold Run.max0. case_decide; [by apply Qclt_le_weak|apply Qcle_refl].
Qed.

Lemma round_trace_facts (W : World) (args : Args) (st st' : Proc)
    (ev : list event) (o : outcome) :
  Run.round W args st = (st', ev, o) →
  spawns st' = spawns st + spawned ev ∧
  spawned ev = changed_polls ev ∧
  Forall (λ e, match e with
               | Spawned c => c = cmd args
               | Slept dt => (0 ≤ dt)%Qc
               | Polled _ => True
               end) ev.
Proof.
  unfold Run.round, Run.fire, Run.do_poll, Run.monotonic, Run.subprocess_run,
    Run.set_deadline, Watcher.changed.
  cbn [deadline watcher polls clock_reads spawns].
  destruct (decide (deadline st ≤ clock W (clock_reads st))%Qc) as [Hdue|Hdue].
  - destruct (Watcher.poll (order W (polls st)) (files W (polls st))
                (watcher st)) as [w' [|e]]; cbn -[Qcplus Qcminus Run.max0].
    + destruct (Watcher._changed w') eqn:Hch; cbn -[Qcplus Qcminus Run.max0].
      * destruct (spawn W (spawns st)) as [|e] eqn:Hsp;
          cbn -[Qcplus Qcminus Run.max0]; intros [= <- <- <-];
          cbn -[Qcplus Qcminus Run.max0];
          (split_and!; [lia|done|repeat constructor; apply max0_nonneg]).
      * intros [= <- <- <-]. cbn -[Qcplus Qcminus Run.max0].
        split_and!; [lia|done|repeat constructor; apply max0_nonneg].
    + intros [= <- <- <-]. cbn. split_and!; [lia|done|constructor].
  - intros [= <- <- <-]. cbn -[Qcplus Qcminus Run.max0].
    split_and!; [lia|done|repeat constructor; apply max0_nonneg].
Qed.

Lemma count_events_app (f : event → bool) (ev ev' : list event) :
  count_events f (ev ++ ev') = count_events f ev + count_events f ev'.
Proof.
  induction ev as [|e ev IH]; [done|].
  cbn [app count_events]. rewrite IH. lia.
Qed.

Lemma spawned_app (ev ev' : list event) :
  spawned (ev ++ ev') = spawned ev + spawned ev'.
Proof. apply count_events_app. Qed.

Lemma changed_polls_app (ev ev' : list event) :
  changed_polls (ev ++ ev') = changed_polls ev + changed_polls ev'.
Proof. apply count_events_app. Qed.

Lemma loop_trace_facts (W : World) (args : Args) (n : nat) (st st' : Proc)
    (ev : list event) (o : outcome) :
  Run.loop W args n st = (st', ev, o) →
  spawns st' = spawns st + spawned ev ∧
  spawned ev = changed_polls ev ∧
  Forall (λ e, match e with
               | Spawned c => c = cmd args
               | Slept dt => (0 ≤ dt)%Qc
               | Polled _ => True
               end) ev.
Proof.
  revert st st' ev o. induction n as [|n IH]; intros st st' ev o;
    cbn [Run.loop].
  - intros [= <- <- _]. split_and!; [cbn; lia|done|constructor].
  - destruct (Run.round W args st) as [[st1 ev1] [|e]] eqn:Hr;
      apply round_trace_facts in Hr as (Hs1 & Hc1 & Hf1).
    + destruct (Run.loop W args n st1) as [[st2 ev2] o2] eqn:Hl.
      apply IH in Hl as (Hs2 & Hc2 & Hf2). intros [= <- <- _].
      rewrite spawned_app, changed_polls_app.
      split_and!; [lia|lia|by apply Forall_app].
    + by intros [= <- <- _].
Qed.

(** X14.  In every run, cut after any number of rounds and however it
    ends, the command is started once for each poll of the loop that
    reported a change and never otherwise, always as [args.cmd]; the
    first poll, before the loop, starts nothing.  No sleep is ever asked
    for a negative time. *)
Theorem run_trace_facts (W : World) (args : Args) (n : nat) (w : Watcher.t) :
  let r := Run.run W args n w in
  spawned r.1.2 = changed_polls (tail r.1.2) ∧
  spawns r.1.1 = spawned r.1.2 ∧
  Forall (λ e, match e with
               | Spawned c => c = cmd args
               | Slept dt => (0 ≤ dt)%Qc
               | Polled _ => True
               end) r.1.2.
Proof.
  cbn zeta. unfold Run.run, Run.prologue, Run.do_poll, Run.start,
    Run.monotonic, Run.set_deadline.
  cbn [polls watcher deadline clock_reads spawns].
  destruct (Watcher.poll (order W 0) (files W 0) w) as [w0 [|e]].
  - match goal with
    | |- context [Run.loop W args n ?s] =>
        destruct (Run.loop W args n s) as [[st ev] o] eqn:Hl
    end.
    apply loop_trace_facts in Hl as (Hs & Hc & Hf).
    cbn [fst snd app tail spawns] in *.
    split_and!; [by rewrite <- Hc|by rewrite Hs|by constructor].
  - cbn. split_and!; [done..|constructor].
Qed.

Lemma round_deadline_steps (W : World) (args : Args) (st st' : Proc)
    (ev : list event) :
  Run.round W args st = (st', ev, Normal) →
  deadline st' =
    Nat.iter (fired ev) (λ d, (d + polling_rate args)%Qc) (deadline st).
Proof.
  intros Hr. apply round_cases in Hr. cbn zeta in Hr.
  destruct Hr as [(_ & _ & -> & _ & _ & dt & ->)
    |[(_ & (e & _ & [=]) & _)
    |[(_ & _ & _ & _ & _ & _ & -> & dt & ->)
    |[(_ & _ & _ & _ & _ & _ & -> & dt & ->)
    |(_ & _ & _ & (e & [=]) & _)]]]]; reflexivity.
Qed.

Lemma loop_deadline_steps (W : World) (args : Args) (n : nat) (st st' : Proc)
    (ev : list event) :
  Run.loop W args n st = (st', ev, Normal) →
  deadline st' =
    Nat.iter (fired ev) (λ d, (d + polling_rate args)%Qc) (deadline st).
Proof.
  revert st st' ev. induction n as [|n IH]; intros st st' ev; cbn [Run.loop].
  - by intros [= <- <-].
  - destruct (Run.round W args st) as [[st1 ev1] [|e]] eqn:Hr; [|done].
    destruct (Run.loop W args n st1) as [[st2 ev2] o2] eqn:Hl.
    intros [= <- <- ->].
    rewrite (IH _ _ _ Hl), (round_deadline_steps _ _ _ _ _ Hr).
    by rewrite fired_app, Nat.add_comm, Nat.iter_add.
Qed.

(** X15.  The deadline is never set from the clock again once the loop
    runs: after a run whose rounds all returned, it is the first reading
    of the clock to which [args.polling_rate] was added once for each
    tick that fired, one addition after the other, whatever the clock
    showed afterwards.  (Nothing is said of the sum in closed form: the
    statement only counts the additions the program makes.) *)
Theorem run_deadline_is_stepped (W : World) (args : Args) (n : nat)
    (w : Watcher.t) (st : Proc) (ev : list event) :
  Run.run W args n w = (st, ev, Normal) →
  ∃ k, fired ev = S k ∧
    deadline st = Nat.iter k (λ d, (d + polling_rate args)%Qc) (clock W 0).
Proof.
  unfold Run.run, Run.prologue, Run.do_poll, Run.start, Run.monotonic,
    Run.set_deadline.
  cbn [polls watcher deadline clock_reads spawns].
  destruct (Watcher.poll (order W 0) (files W 0) w) as [w0 [|e]]; [|done].
  match goal with
  | |- context [Run.loop W args n ?s] =>
      destruct (Run.loop W args n s) as [[st1 ev1] o1] eqn:Hl
  end.
  intros [= <- <- ->]. exists (fired ev1). split; [done|].
  by rewrite (loop_deadline_steps _ _ _ _ _ _ Hl).
Qed.

Lemma run_deadline_is_stepped_witness :
  let W := world_of [fs_hdmi; fs_hdmi; fs_dp_unreadable] in
  let r := Run.run W default_args 1 watcher0 in
  ∃ k, fired r.1.2 = S k ∧
    deadline r.1.1 =
      Nat.iter k (λ d, (d + polling_rate default_args)%Qc) (clock W 0).
Proof.
  apply (run_deadline_is_stepped
           (world_of [fs_hdmi; fs_hdmi; fs_dp_unreadable]) default_args 1
           watcher0).
  vm_compute. reflexivity.
Defined.

(** ** No change is missed *)

Lemma poll_cards_Forall2 (ord : SetIter) (fs : FileSys)
    (cards cards' : list Card.t) (b b' : bool) :
  Watcher.poll_cards ord fs cards b = (cards', b', Normal) →
  Forall2 (λ a a', Card.update ord fs a = (a', Normal)) cards cards'.
Proof.
  revert cards' b b'. induction cards as [|card cards IH]; intros cards' b b';
    cbn [Watcher.poll_cards].
  - intros [= <- _]. constructor.
  - destruct (Card.update ord fs card) as [c' [|e]] eqn:Hc; [|done].
    destruct (Watcher.poll_cards ord fs cards (b || Card.changed c'))
      as [[r b''] o] eqn:Hrest.
    intros [= <- <- ->]. constructor; [done|eauto].
Qed.

Lemma card_update_reports (ord : SetIter) (fs : FileSys) (c c' : Card.t)
    (names : list string) :
  Card.update ord fs c = (c', Normal) →
  Card._enum_ports fs c = Ok names →
  ((list_to_set names : gset string) ≠ list_to_set (dict_keys (Card._ports c)) ∨
   ∃ name p line, dict_get name (Card._ports c) = Some p ∧ name ∈ names ∧
     readline fs (os_path_join (Port._path p) "status") = Ok line ∧
     Some (strip line) ≠ Port._status p) →
  Card.changed c' = true.
Proof.
  intros Hup Hen Hdiff.
  destruct (card_update_normal_inv ord fs c c' names Hen Hup) as [_ ->].
  unfold Card.changed. cbn [Card._changed]. apply orb_true_iff.
  destruct Hdiff as [Hsets|(name & p & line & Hget & Hname & Hrd & Hne)].
  - left. set (new := list_to_set names : gset string) in *.
    set (old := list_to_set (dict_keys (Card._ports c)) : gset string) in *.
    clearbody new old.
    destruct (decide (old ∖ new ≠ ∅)) as [|H1]; [done|].
    destruct (decide (new ∖ old ≠ ∅)) as [|H2]; [done|].
    destruct Hsets. apply dec_stable in H1, H2.
    apply set_eq. intros x. split; intros Hx.
    + destruct (decide (x ∈ old)) as [|Hn]; [done|].
      assert (x ∈ new ∖ old) as Hin by by apply elem_of_difference.
      rewrite H2 in Hin. by apply not_elem_of_empty in Hin.
    + destruct (decide (x ∈ new)) as [|Hn]; [done|].
      assert (x ∈ old ∖ new) as Hin by by apply elem_of_difference.
      rewrite H1 in Hin. by apply not_elem_of_empty in Hin.
  - right. apply existsb_exists. exists (name, p). split.
    + apply list_elem_of_In.
      pose proof (reconciled_entry ord c names name Hname) as Hin.
      rewrite Hget, reconcile_spec in Hin. exact Hin.
    + cbn [snd]. rewrite (port_update_ok fs p line Hrd).
      unfold Port.changed. cbn. by apply bool_decide_eq_true.
Qed.

(** X16.  A poll that returns misses nothing: if, for some card, the
    names enumerated are not the names it knew, or some port it knew and
    still enumerates reads a status other than the one it held, then the
    watcher's flag is true after the poll. *)
Theorem poll_reports_every_change (ord : SetIter) (fs : FileSys)
    (w w' : Watcher.t) (c : Card.t) (names : list string) :
  Watcher.poll ord fs w = (w', Normal) →
  c ∈ Watcher._cards w →
  Card._enum_ports fs c = Ok names →
  ((list_to_set names : gset string) ≠ list_to_set (dict_keys (Card._ports c)) ∨
   ∃ name p line, dict_get name (Card._ports c) = Some p ∧ name ∈ names ∧
     readline fs (os_path_join (Port._path p) "status") = Ok line ∧
     Some (strip line) ≠ Port._status p) →
  Watcher.changed w' = true.
Proof.
  intros Hpoll Hc Hen Hdiff.
  apply (watcher_changed_iff_some_card ord fs w w' Hpoll).
  unfold Watcher.poll in Hpoll.
  destruct (Watcher.poll_cards ord fs (Watcher._cards w) false)
    as [[cards' b'] o] eqn:Hp.
  injection Hpoll as <- ->. cbn [Watcher._cards].
  apply poll_cards_Forall2 in Hp.
  apply list_elem_of_lookup in Hc as [i Hi].
  destruct (Forall2_lookup_l _ _ _ _ _ Hp Hi) as (c' & Hi' & Hup).
  exists c'. split; [by eapply list_elem_of_lookup_2|].
  by eapply card_update_reports.
Qed.

Lemma poll_reports_every_change_witness :
  Watcher.changed
    (Watcher.poll elements_order fs_hdmi
       {| Watcher._cards := [card0_before]; Watcher._changed := false |}).1
  = true.
Proof.
  apply (poll_reports_every_change elements_order fs_hdmi
           {| Watcher._cards := [card0_before]; Watcher._changed := false |}
           (Watcher.poll elements_order fs_hdmi
              {| Watcher._cards := [card0_before];
                 Watcher._changed := false |}).1
           card0_before ["card0-DP-1"; "card0-HDMI-A-1"]).
  - vm_compute. reflexivity.
  - apply list_elem_of_here.
  - vm_compute. reflexivity.
  - left. intros Heq.
    assert (Hin : "card0-HDMI-A-1" ∈
              (list_to_set ["card0-DP-1"; "card0-HDMI-A-1"] : gset string))
      by (apply elem_of_list_to_set; do 2 constructor).
    rewrite Heq in Hin. apply elem_of_list_to_set in Hin.
    cbn in Hin. rewrite !elem_of_cons, elem_of_nil in Hin.
    destruct Hin as [H|[H|[]]]; discriminate H.
Defined.
